(** * Iris messaging framework: carrier heartbeat, gobber codec, relay
      handshake and overlay subscriptions

    A shallow embedding of

    - [proto/carrier/heart.go]: the monitor keys, [carrier.Beat] and
      [carrier.Dead];
    - the [gobber] package: [New], [Init], [Encode], [Decode];
    - [service/relay/relay.go]: [Relay.acceptRelay];
    - the [iris] overlay: [Overlay.subscribe] and [Overlay.unsubscribe].

    Arbitrary precision integers ([*big.Int]) are [Z], [uint64] connection
    ids are [N], Go maps are [gmap]s, slices are lists.  Calls that leave the
    modelled files (the heart, the scribe overlay, spawned goroutines) are
    recorded as events. *)

From Stdlib Require Import ZArith NArith Lia Ascii String List.
From Stdlib Require Strings.Byte.
From stdpp Require Import gmap strings list fin_maps.

Local Open Scope Z_scope.

(** ** Monitor keys ([carrier.monitor], [carrier.unmonitor], [carrier.ping]
       and the split at the head of [carrier.Dead]) *)

Module MonitorKey.

Section Keys.
(** [config.OverlaySpace], used as [uint(config.OverlaySpace)]. *)
Variable OverlaySpace : N.

(** [new(big.Int).Add(new(big.Int).Lsh(topic, S), node)] *)
Definition monitor_id (topic node : Z) : Z :=
  Z.shiftl topic (Z.of_N OverlaySpace) + node.

(** [topic := Rsh(id, S)], [node := Sub(id, Lsh(topic, S))] *)
Definition dead_split (id : Z) : Z * Z :=
  let topic := Z.shiftr id (Z.of_N OverlaySpace) in
  let node := id - Z.shiftl topic (Z.of_N OverlaySpace) in
  (topic, node).

Lemma pow2_space_pos : 0 < 2 ^ Z.of_N OverlaySpace.
Proof. apply Z.pow_pos_nonneg; lia. Qed.

Lemma monitor_id_mul topic node :
  monitor_id topic node = topic * 2 ^ Z.of_N OverlaySpace + node.
Proof. unfold monitor_id. rewrite Z.shiftl_mul_pow2 by lia. reflexivity. Qed.

Lemma shiftr_monitor_id topic node :
  0 <= node < 2 ^ Z.of_N OverlaySpace ->
  Z.shiftr (monitor_id topic node) (Z.of_N OverlaySpace) = topic.
Proof.
  intros Hn. rewrite monitor_id_mul, Z.shiftr_div_pow2 by lia.
  rewrite Z.div_add_l by (pose proof pow2_space_pos; lia).
  rewrite Z.div_small by exact Hn. lia.
Qed.

(** The split undoes the encoding for every topic, of either sign. *)
Lemma dead_split_monitor_id topic node :
  0 <= node < 2 ^ Z.of_N OverlaySpace ->
  dead_split (monitor_id topic node) = (topic, node).
Proof.
  intros Hn. unfold dead_split. rewrite shiftr_monitor_id by exact Hn.
  f_equal. unfold monitor_id. lia.
Qed.
End Keys.

End MonitorKey.

(** C5. For non-negative [topic] and [node] with [node < 2^S], splitting the
    monitor key [(topic << S) + node] the way [carrier.Dead] does gives back
    [topic] and [node]; hence two such pairs with the same key are the same
    pair. *)
Theorem monitor_key_round_trip (S : N) :
  (forall topic node : Z,
      0 <= topic -> 0 <= node < 2 ^ Z.of_N S ->
      MonitorKey.dead_split S (MonitorKey.monitor_id S topic node) = (topic, node))
  /\
  (forall t1 n1 t2 n2 : Z,
      0 <= t1 -> 0 <= n1 < 2 ^ Z.of_N S ->
      0 <= t2 -> 0 <= n2 < 2 ^ Z.of_N S ->
      MonitorKey.monitor_id S t1 n1 = MonitorKey.monitor_id S t2 n2 ->
      t1 = t2 /\ n1 = n2).
Proof.
  split.
  - intros topic node _ Hn. apply MonitorKey.dead_split_monitor_id, Hn.
  - intros t1 n1 t2 n2 _ H1 _ H2 Heq.
    pose proof (MonitorKey.dead_split_monitor_id S t1 n1 H1) as E1.
    pose proof (MonitorKey.dead_split_monitor_id S t2 n2 H2) as E2.
    rewrite Heq in E1. rewrite E1 in E2. inversion E2. auto.
Qed.

Lemma monitor_key_round_trip_witness :
  MonitorKey.dead_split 40 (MonitorKey.monitor_id 40 7 12345) = (7, 12345)
  /\ (7 = 7 /\ 5 = 5).
Proof.
  split.
  - apply (proj1 (monitor_key_round_trip 40) 7 12345);
      [lia | split; [lia | reflexivity]].
  - apply (proj2 (monitor_key_round_trip 40) 7 5 7 5);
      first [lia | reflexivity | split; [lia | reflexivity]].
Defined.

(** ** Decimal text of integers ([big.Int.String] and
       [big.Int.SetString(s, 10)] of Go's math/big) *)

Module BigText.

(** The character of one decimal digit, ['0'] + d. *)
Definition digit_char (d : N) : ascii := ascii_of_N (48 + d).

(** The value of a decimal digit character, if it is one. *)
Definition digit_val (c : ascii) : option N :=
  let n := N_of_ascii c in
  if ((48 <=? n) && (n <=? 57))%N then Some (n - 48)%N else None.

(** Digits of [n], most significant first, put in front of [acc]; the
    division loop of the conversion, bounded by [fuel]. *)
Fixpoint digits_go (fuel : nat) (n : N) (acc : string) : string :=
  match fuel with
  | O => acc
  | S fuel' =>
      let acc' := String (digit_char (n mod 10)) acc in
      if (n / 10 =? 0)%N then acc' else digits_go fuel' (n / 10)%N acc'
  end.

Definition nat_text (n : N) : string :=
  digits_go (S (N.to_nat (N.log2 n))) n EmptyString.

(** [x.String()], that is [x.Text(10)]: ["0"] for zero, a leading ["-"] for
    negative numbers, no leading zeros. *)
Definition Int_String (x : Z) : string :=
  match x with
  | Z0 => nat_text 0
  | Zpos p => nat_text (Npos p)
  | Zneg p => String "-"%char (nat_text (Npos p))
  end.

(** The digit loop of the scanner: every character must be a digit. *)
Fixpoint scan_digits (s : string) (acc : N) : option N :=
  match s with
  | EmptyString => Some acc
  | String c s' =>
      match digit_val c with
      | Some d => scan_digits s' (acc * 10 + d)%N
      | None => None
      end
  end.

(** At least one digit is required. *)
Definition scan_nat (s : string) : option N :=
  match s with
  | EmptyString => None
  | _ => scan_digits s 0%N
  end.

(** [new(big.Int).SetString(s, 10)]: an optional sign, then one or more
    digits, and nothing else; [None] is [ok == false]. *)
Definition Int_SetString10 (s : string) : option Z :=
  match s with
  | String "-"%char s' => option_map (fun n => - Z.of_N n) (scan_nat s')
  | String "+"%char s' => option_map Z.of_N (scan_nat s')
  | _ => option_map Z.of_N (scan_nat s)
  end.

Lemma digit_val_char d : (d < 10)%N -> digit_val (digit_char d) = Some d.
Proof.
  intros Hd. unfold digit_val, digit_char.
  rewrite N_ascii_embedding by lia.
  replace ((48 <=? 48 + d) && (48 + d <=? 57))%N with true.
  - f_equal. lia.
  - symmetry. apply andb_true_intro. split; apply N.leb_le; lia.
Qed.

Lemma digit_char_not_sign d :
  (d < 10)%N -> digit_char d <> "-"%char /\ digit_char d <> "+"%char.
Proof.
  intros Hd. split; intros E; apply (f_equal digit_val) in E;
    rewrite digit_val_char in E by assumption; vm_compute in E; discriminate.
Qed.

(** Scanning the digits produced for [n] multiplies nothing away: it is the
    same as continuing the scan of the rest from [n]. *)
Lemma scan_digits_go fuel : forall n acc,
  (n < 2 ^ N.of_nat fuel)%N -> (0 < fuel)%nat ->
  scan_digits (digits_go fuel n acc) 0 = scan_digits acc n.
Proof.
  induction fuel as [|fuel IH]; intros n acc Hn Hf; [lia|].
  cbn [digits_go].
  assert (Hmod : (n mod 10 < 10)%N) by (apply N.mod_lt; lia).
  assert (Hdiv : (n = 10 * (n / 10) + n mod 10)%N) by (apply N.div_mod; lia).
  destruct (N.eqb_spec (n / 10) 0) as [Hz|Hz].
  - cbn [scan_digits]. rewrite digit_val_char by assumption.
    f_equal. lia.
  - assert (Hlt : (n / 10 < 2 ^ N.of_nat fuel)%N).
    { rewrite Nat2N.inj_succ, N.pow_succ_r' in Hn.
      remember (2 ^ N.of_nat fuel)%N as P. remember (n / 10)%N as q.
      remember (n mod 10)%N as r. lia. }
    destruct fuel as [|fuel'].
    + cbn in Hlt. lia.
    + rewrite IH by (assumption || lia).
      cbn [scan_digits]. rewrite digit_val_char by assumption.
      f_equal. lia.
Qed.

Lemma digits_go_nonempty fuel n acc :
  (0 < fuel)%nat -> exists c s, digits_go fuel n acc = String c s /\
    exists d, (d < 10)%N /\ c = digit_char d.
Proof.
  revert n acc. induction fuel as [|fuel IH]; intros n acc Hf; [lia|].
  cbn [digits_go].
  assert (Hmod : (n mod 10 < 10)%N) by (apply N.mod_lt; lia).
  destruct (N.eqb_spec (n / 10) 0) as [Hz|Hz].
  - eauto 6.
  - destruct fuel as [|fuel'].
    + cbn [digits_go]. eauto 6.
    + apply IH. lia.
Qed.

Lemma nat_text_fuel n : (n < 2 ^ N.of_nat (S (N.to_nat (N.log2 n))))%N.
Proof.
  rewrite Nat2N.inj_succ, N2Nat.id.
  destruct n as [|p]; [reflexivity|].
  apply N.log2_spec. lia.
Qed.

Lemma scan_nat_text n : scan_nat (nat_text n) = Some n.
Proof.
  unfold nat_text, scan_nat.
  destruct (digits_go_nonempty (S (N.to_nat (N.log2 n))) n EmptyString)
    as (c & s & E & _); [lia|].
  pose proof (scan_digits_go (S (N.to_nat (N.log2 n))) n EmptyString
                (nat_text_fuel n) ltac:(lia)) as Hs.
  rewrite E in *. exact Hs.
Qed.

Lemma nat_text_head n :
  exists c s, nat_text n = String c s /\ c <> "-"%char /\ c <> "+"%char.
Proof.
  destruct (digits_go_nonempty (S (N.to_nat (N.log2 n))) n EmptyString)
    as (c & s & E & d & Hd & ->); [lia|].
  exists (digit_char d), s. split; [exact E|]. apply digit_char_not_sign, Hd.
Qed.

Lemma SetString10_unsigned n :
  Int_SetString10 (nat_text n) = Some (Z.of_N n).
Proof.
  destruct (nat_text_head n) as (c & s & E & Hm & Hp).
  pose proof (scan_nat_text n) as Hs. rewrite E in *.
  unfold Int_SetString10.
  destruct c as [[] [] [] [] [] [] [] []]; try (rewrite Hs; reflexivity);
    congruence.
Qed.

(** Parsing the decimal text of an integer gives the integer back. *)
Lemma SetString10_String x : Int_SetString10 (Int_String x) = Some x.
Proof.
  destruct x as [|p|p]; cbn [Int_String].
  - apply (SetString10_unsigned 0).
  - apply (SetString10_unsigned (Npos p)).
  - cbn [Int_SetString10]. rewrite scan_nat_text. reflexivity.
Qed.

Lemma Int_String_inj x y : Int_String x = Int_String y -> x = y.
Proof.
  intros E. apply (f_equal Int_SetString10) in E.
  rewrite !SetString10_String in E. congruence.
Qed.

End BigText.

(** ** The carrier's heartbeat handlers ([proto/carrier/heart.go]) *)

Module Carrier.
Import BigText.

(** The methods of [topic.Topic] that the handlers call.  [GenerateReport]
    returns the node ids and, in a parallel slice, their capacities;
    [Cycle] and [Reown] update the topic in place. *)
Class TopicOps (T : Type) := {
  Self : T -> Z;
  Parent : T -> option Z;
  GenerateReport : T -> list Z * list Z;
  Cycle : T -> T;
  Reown : option Z -> T -> T
}.

(** [type report struct { Tops []*big.Int; Caps []int }] *)
Record report := { Tops : list Z; Caps : list Z }.

(** Goroutines started by [Beat]. *)
Inductive spawn :=
| SendReport (id : Z) (rep : report)
| SendSubscribe (topic : Z).

(** The two ways [Beat] can panic: [caps[i]] out of range, and the explicit
    [panic("failed to extract node id.")]. *)
Inductive panic := IndexOutOfRange | FailedExtractNodeId.

(** Calls that [Dead] makes outside this file, and its log line. *)
Inductive call :=
| HeartUnmonitor (id : Z)
| HandleUnsubscribe (node topic : Z) (local : bool)
| LogTopicDead (topic : Z).

Section WithTopic.
Context {T : Type} `{TopicOps T}.

(** [config.OverlaySpace] *)
Variable OverlaySpace : N.

(** Result of one [Beat]: the topic map after the call and the goroutines
    started, or a panic. *)
Inductive beat_result :=
| BeatDone (topics : gmap string T) (spawned : list spawn)
| BeatPanic (p : panic).

(** The body of the inner loop: find or create the report of [id], append
    the topic and the capacity. *)
Definition add_report (self : Z) (reports : gmap string report) (id cap : Z)
  : gmap string report :=
  let sid := Int_String id in
  let rep := match reports !! sid with
             | Some rep => rep
             | None => {| Tops := []; Caps := [] |}
             end in
  <[sid := {| Tops := Tops rep ++ [self]; Caps := Caps rep ++ [cap] |}]> reports.

(** [for i, id := range ids { ... caps[i] ... }], from index [i] on. *)
Fixpoint report_ids (self : Z) (caps : list Z) (i : nat) (ids : list Z)
    (reports : gmap string report) : option (gmap string report) :=
  match ids with
  | [] => Some reports
  | id :: ids' =>
      match caps !! i with
      | Some cap => report_ids self caps (S i) ids' (add_report self reports id cap)
      | None => None
      end
  end.

(** [for _, top := range c.topics { ...; top.Cycle() }]: the reports; the
    cycling is applied to the map by [Beat]. *)
Fixpoint collect_reports (tops : list T) (reports : gmap string report)
  : option (gmap string report) :=
  match tops with
  | [] => Some reports
  | top :: tops' =>
      let '(ids, caps) := GenerateReport top in
      match report_ids (Self top) caps 0 ids reports with
      | Some reports' => collect_reports tops' reports'
      | None => None
      end
  end.

(** [for sid, rep := range reports { ... }] *)
Fixpoint distribute (l : list (string * report)) : option (list spawn) :=
  match l with
  | [] => Some []
  | (sid, rep) :: l' =>
      match Int_SetString10 sid with
      | Some id =>
          match distribute l' with
          | Some sends => Some (SendReport id rep :: sends)
          | None => None
          end
      | None => None
      end
  end.

(** [for _, top := range c.topics { if top.Parent() == nil { ... } }] *)
Fixpoint subscribe_roots (tops : list T) : list spawn :=
  match tops with
  | [] => []
  | top :: tops' =>
      match Parent top with
      | None => SendSubscribe (Self top) :: subscribe_roots tops'
      | Some _ => subscribe_roots tops'
      end
  end.

(** [carrier.Beat].  Go leaves the iteration order of a map open; the model
    iterates in the order of [map_to_list]. *)
Definition Beat (topics : gmap string T) : beat_result :=
  match collect_reports (map_to_list topics).*2 ∅ with
  | None => BeatPanic IndexOutOfRange
  | Some reports =>
      let cycled := Cycle <$> topics in
      match distribute (map_to_list reports) with
      | None => BeatPanic FailedExtractNodeId
      | Some sends =>
          BeatDone cycled (sends ++ subscribe_roots (map_to_list cycled).*2)
      end
  end.

(** [carrier.Dead]: the topic map after the call and the calls made. *)
Definition Dead (topics : gmap string T) (id : Z) : gmap string T * list call :=
  let '(topic, node) := MonitorKey.dead_split OverlaySpace id in
  match topics !! Int_String topic with
  | Some top =>
      let is_parent := match Parent top with
                       | Some parent => parent =? node
                       | None => false
                       end in
      if is_parent
      then (<[Int_String topic := Reown None top]> topics, [HeartUnmonitor id])
      else (topics, [HandleUnsubscribe node topic false])
  | None => (topics, [LogTopicDead topic])
  end.

(** *** Every key of the report map is the text of a node id *)

Definition keys_are_ids (reports : gmap string report) : Prop :=
  forall sid rep, reports !! sid = Some rep -> exists id, sid = Int_String id.

Lemma keys_are_ids_empty : keys_are_ids ∅.
Proof. intros sid rep E. rewrite lookup_empty in E. discriminate. Qed.

Lemma keys_are_ids_add self reports id cap :
  keys_are_ids reports -> keys_are_ids (add_report self reports id cap).
Proof.
  intros Hk sid rep. unfold add_report.
  destruct (decide (Int_String id = sid)) as [<-|Hne].
  - eauto.
  - rewrite lookup_insert_ne by exact Hne. apply Hk.
Qed.

Lemma keys_are_ids_report_ids self caps ids : forall i reports reports',
  keys_are_ids reports ->
  report_ids self caps i ids reports = Some reports' ->
  keys_are_ids reports'.
Proof.
  induction ids as [|id ids IH]; intros i reports reports' Hk E; cbn in E.
  - injection E as <-. exact Hk.
  - destruct (caps !! i) as [cap|]; [|discriminate].
    eapply IH; [|exact E]. apply keys_are_ids_add, Hk.
Qed.

Lemma keys_are_ids_collect tops : forall reports reports',
  keys_are_ids reports ->
  collect_reports tops reports = Some reports' ->
  keys_are_ids reports'.
Proof.
  induction tops as [|top tops IH]; intros reports reports' Hk E; cbn in E.
  - injection E as <-. exact Hk.
  - destruct (GenerateReport top) as [ids caps].
    destruct (report_ids (Self top) caps 0 ids reports) as [mid|] eqn:Em;
      [|discriminate].
    eapply IH; [|exact E]. eapply keys_are_ids_report_ids; eauto.
Qed.

Lemma distribute_ids (l : list (string * report)) :
  (forall sid rep, (sid, rep) ∈ l -> exists id, sid = Int_String id) ->
  exists sends, distribute l = Some sends.
Proof.
  induction l as [|[sid rep] l IH]; intros Hl; cbn.
  - eauto.
  - destruct (Hl sid rep) as [id ->]; [left|].
    rewrite SetString10_String.
    destruct IH as [sends ->]; [|eauto].
    intros sid' rep' Hin. apply (Hl sid' rep'). right. exact Hin.
Qed.

(** *** What each destination receives *)

(** The (topic, capacity) pairs that one topic reports for node [id]: one
    for every position of [id] in the topic's id slice. *)
Definition topic_pairs (id : Z) (top : T) : list (Z * Z) :=
  (fun p : Z * Z => (Self top, p.2))
    <$> filter (fun p : Z * Z => p.1 = id)
               (zip (GenerateReport top).1 (GenerateReport top).2).

(** The pairs of all topics for node [id], topics in iteration order. *)
Definition expected_pairs (id : Z) (tops : list T) : list (Z * Z) :=
  tops ≫= topic_pairs id.

(** A report with the given pairs appended; no report when there is none
    yet and nothing to append. *)
Definition extend (rep0 : option report) (pairs : list (Z * Z)) : option report :=
  match pairs with
  | [] => rep0
  | _ =>
      let rep := match rep0 with
                 | Some rep => rep
                 | None => {| Tops := []; Caps := [] |}
                 end in
      Some {| Tops := Tops rep ++ pairs.*1; Caps := Caps rep ++ pairs.*2 |}
  end.

Lemma extend_app rep0 p1 p2 : extend (extend rep0 p1) p2 = extend rep0 (p1 ++ p2).
Proof.
  destruct p1 as [|a p1]; [reflexivity|].
  destruct p2 as [|b p2].
  - rewrite app_nil_r. reflexivity.
  - cbn [extend app]. f_equal.
    rewrite !fmap_cons, !fmap_app, !fmap_cons. cbn [Tops Caps].
    rewrite <- !app_assoc. reflexivity.
Qed.

Lemma add_report_lookup self reports id cap id' :
  add_report self reports id cap !! Int_String id' =
  if decide (id = id')
  then extend (reports !! Int_String id') [(self, cap)]
  else reports !! Int_String id'.
Proof.
  unfold add_report. destruct (decide (id = id')) as [->|Hne].
  - rewrite lookup_insert_eq. cbn. reflexivity.
  - rewrite lookup_insert_ne; [reflexivity|].
    intros E. apply Hne, Int_String_inj, E.
Qed.

Lemma report_ids_lookup self caps id' ids : forall i reports reports',
  report_ids self caps i ids reports = Some reports' ->
  reports' !! Int_String id' =
  extend (reports !! Int_String id')
         ((fun p : Z * Z => (self, p.2))
            <$> filter (fun p : Z * Z => p.1 = id') (zip ids (drop i caps))).
Proof.
  induction ids as [|id ids IH]; intros i reports reports' E; cbn in E.
  - injection E as <-. reflexivity.
  - destruct (caps !! i) as [cap|] eqn:Ec; [|discriminate].
    rewrite (drop_S _ _ _ Ec). cbn [zip zip_with].
    rewrite (IH _ _ _ E), add_report_lookup, filter_cons. cbn [fst].
    destruct (decide (id = id')) as [->|Hne].
    + rewrite fmap_cons, extend_app. reflexivity.
    + reflexivity.
Qed.

Lemma report_ids_in_range self caps ids : forall i reports,
  (length ids + i <= length caps)%nat ->
  exists reports', report_ids self caps i ids reports = Some reports'.
Proof.
  induction ids as [|id ids IH]; intros i reports Hlen; cbn.
  - eauto.
  - cbn in Hlen. destruct (lookup_lt_is_Some_2 caps i) as [cap ->]; [lia|].
    apply IH. lia.
Qed.

Lemma collect_reports_lookup id' tops : forall reports reports',
  collect_reports tops reports = Some reports' ->
  reports' !! Int_String id' =
  extend (reports !! Int_String id') (expected_pairs id' tops).
Proof.
  induction tops as [|top tops IH]; intros reports reports' E; cbn in E.
  - injection E as <-. reflexivity.
  - unfold expected_pairs. rewrite bind_cons, <- extend_app.
    unfold topic_pairs at 1.
    destruct (GenerateReport top) as [ids caps]. cbn [fst snd].
    destruct (report_ids (Self top) caps 0 ids reports) as [mid|] eqn:Em;
      [|discriminate].
    rewrite (IH _ _ E). f_equal.
    apply (report_ids_lookup _ _ _ _ _ _ _ Em).
Qed.






(** *** The handlers' contracts *)

(** With node ids that are numbers, the report map is keyed by the decimal
    text of numbers only, every key parses back, and [Beat] does not reach
    [panic("failed to extract node id.")].  Ids that are nil pointers are
    the subject of [CarrierPtr]. *)
Theorem Beat_extract_panic_unreachable (topics : gmap string T) :
  Beat topics <> BeatPanic FailedExtractNodeId.
Proof.
  unfold Beat.
  destruct (collect_reports (map_to_list topics).*2 ∅) as [reports|] eqn:Ec;
    [|discriminate].
  pose proof (keys_are_ids_collect _ _ _ keys_are_ids_empty Ec) as Hk.
  destruct (distribute_ids (map_to_list reports)) as [sends ->]; [|discriminate].
  intros sid rep Hin. apply elem_of_map_to_list in Hin. eapply Hk, Hin.
Qed.


(** C3. [Dead] splits the id into [topic = id >> S] and
    [node = id - (topic << S)].  For a topic found in the topic map: when
    [node] is the topic's parent, the id is unmonitored and the topic is
    re-owned with nil; otherwise the event is handled as an unsubscription
    of [node] from [topic]. *)
Theorem Dead_parent_or_child (topics : gmap string T) (id : Z) (top : T) :
  let topic := Z.shiftr id (Z.of_N OverlaySpace) in
  let node := id - Z.shiftl topic (Z.of_N OverlaySpace) in
  topics !! Int_String topic = Some top ->
  (Parent top = Some node ->
     Dead topics id =
       (<[Int_String topic := Reown None top]> topics, [HeartUnmonitor id])) /\
  (Parent top <> Some node ->
     Dead topics id = (topics, [HandleUnsubscribe node topic false])).
Proof.
  intros topic node Htop. unfold Dead, MonitorKey.dead_split.
  fold topic. fold node. rewrite Htop. split.
  - intros ->. rewrite Z.eqb_refl. reflexivity.
  - intros Hne. destruct (Parent top) as [parent|]; [|reflexivity].
    destruct (Z.eqb_spec parent node) as [->|_]; [congruence|reflexivity].
Qed.

(** A dead id whose topic is not in the map changes nothing. *)
Lemma Dead_unknown_topic (topics : gmap string T) (id : Z) :
  let topic := Z.shiftr id (Z.of_N OverlaySpace) in
  topics !! Int_String topic = None ->
  Dead topics id = (topics, [LogTopicDead topic]).
Proof.
  intros topic Htop. unfold Dead, MonitorKey.dead_split.
  fold topic. rewrite Htop. reflexivity.
Qed.

End WithTopic.
End Carrier.

(** *** A concrete topic, to run the handlers *)

Module CarrierRun.
Import BigText Carrier.

(** A topic reduced to what the handlers observe: its own id, its parent,
    the report it would generate, and the number of cycles it went
    through. *)
Record plain_topic := {
  pt_self : Z;
  pt_parent : option Z;
  pt_ids : list Z;
  pt_caps : list Z;
  pt_cycles : nat
}.

#[export] Instance plain_topic_ops : TopicOps plain_topic := {|
  Self := pt_self;
  Parent := pt_parent;
  GenerateReport := fun t => (pt_ids t, pt_caps t);
  Cycle := fun t =>
    {| pt_self := pt_self t; pt_parent := pt_parent t; pt_ids := pt_ids t;
       pt_caps := pt_caps t; pt_cycles := S (pt_cycles t) |};
  Reown := fun p t =>
    {| pt_self := pt_self t; pt_parent := p; pt_ids := pt_ids t;
       pt_caps := pt_caps t; pt_cycles := pt_cycles t |}
|}.

(** Topic 7 is a root with children 1 and 2; topic 9 has parent 1. *)
Definition topic7 : plain_topic :=
  {| pt_self := 7; pt_parent := None; pt_ids := [1; 2]; pt_caps := [3; 4];
     pt_cycles := 0 |}.

Definition topic9 : plain_topic :=
  {| pt_self := 9; pt_parent := Some 1; pt_ids := [1]; pt_caps := [5];
     pt_cycles := 0 |}.

Definition two_topics : gmap string plain_topic :=
  <[Int_String 7 := topic7]> (<[Int_String 9 := topic9]> ∅).

Example Int_String_samples :
  Int_String 0 = "0"%string /\ Int_String 1234567890 = "1234567890"%string /\
  Int_String (-42) = "-42"%string.
Proof. repeat split; reflexivity. Qed.

Example Int_SetString10_samples :
  Int_SetString10 "007" = Some 7 /\ Int_SetString10 "+5" = Some 5 /\
  Int_SetString10 "-" = None /\ Int_SetString10 "" = None /\
  Int_SetString10 "<nil>" = None /\ Int_SetString10 "1_0" = None.
Proof. repeat split; reflexivity. Qed.

(** Node 1 is named by both topics and gets one report with both pairs. *)
Example Beat_two_topics_node1 :
  exists topics' spawned,
    Beat two_topics = BeatDone topics' spawned /\
    SendReport 1 {| Tops := [7; 9]; Caps := [3; 5] |} ∈ spawned /\
    SendReport 2 {| Tops := [7]; Caps := [4] |} ∈ spawned /\
    SendSubscribe 7 ∈ spawned /\
    length spawned = 3%nat.
Proof.
  eexists _, _. split; [vm_compute; reflexivity|].
  repeat split; repeat (first [left | right]).
Qed.



(** Node 1 is the parent of topic 9; node 2 is a child of topic 7; the
    overlay space is 40 bits wide. *)
Lemma Dead_parent_or_child_witness :
  Dead 40 two_topics (MonitorKey.monitor_id 40 9 1) =
    (<[Int_String 9 := Reown None topic9]> two_topics,
     [HeartUnmonitor (MonitorKey.monitor_id 40 9 1)]) /\
  Dead 40 two_topics (MonitorKey.monitor_id 40 7 2) =
    (two_topics, [HandleUnsubscribe 2 7 false]).
Proof.
  split.
  - refine (proj1 (Dead_parent_or_child 40 two_topics
                     (MonitorKey.monitor_id 40 9 1) topic9 _) _);
      vm_compute; reflexivity.
  - refine (proj2 (Dead_parent_or_child 40 two_topics
                     (MonitorKey.monitor_id 40 7 2) topic7 _) _);
      vm_compute; [reflexivity | discriminate].
Defined.

(** A child's death is an unsubscription: node 2 under topic 7. *)
Example Dead_child_of_topic7 :
  Dead 40 two_topics (MonitorKey.monitor_id 40 7 2) =
    (two_topics, [HandleUnsubscribe 2 7 false]).
Proof. vm_compute. reflexivity. Qed.

Example Dead_parent_of_topic9 :
  (Dead 40 two_topics (MonitorKey.monitor_id 40 9 1)).2 =
    [HeartUnmonitor (MonitorKey.monitor_id 40 9 1)] /\
  Parent <$> ((Dead 40 two_topics (MonitorKey.monitor_id 40 9 1)).1 !! Int_String 9)
    = Some None.
Proof. split; vm_compute; reflexivity. Qed.

End CarrierRun.

(** ** The gobber: a datagram codec over two gob coders *)

Module Gobber.

(** What the gobber uses of Go's encoding/gob.  A coder is a state; the
    encoder appends bytes to its buffer; the decoder reads from its buffer
    and leaves what it did not read.  The value a decode stores through its
    target is not tracked, only whether it failed. *)
Class GobCodec (Msg Err : Type) := {
  enc_state : Type;
  dec_state : Type;
  (** [gob.NewEncoder], [gob.NewDecoder] *)
  NewEncoder : enc_state;
  NewDecoder : dec_state;
  (** [enc.Encode(msg)]: new state, bytes written, error *)
  enc_Encode : enc_state -> Msg -> enc_state * list Byte.byte * option Err;
  (** [dec.Decode(msg)] on a buffer holding the given bytes: new state,
      bytes left unread, error *)
  dec_Decode : dec_state -> list Byte.byte -> Msg -> dec_state * list Byte.byte * option Err
}.

Section WithCodec.
Context {Msg Err : Type} `{GobCodec Msg Err}.

(** [type Gobber struct] *)
Record Gobber := {
  outBuf : list Byte.byte;
  inBuf : list Byte.byte;
  outEnc : enc_state;
  inDec : dec_state;
  types : list Msg
}.

Definition set_types (ts : list Msg) (g : Gobber) : Gobber :=
  {| outBuf := outBuf g; inBuf := inBuf g; outEnc := outEnc g;
     inDec := inDec g; types := ts |}.

Definition set_inBuf (b : list Byte.byte) (g : Gobber) : Gobber :=
  {| outBuf := outBuf g; inBuf := b; outEnc := outEnc g;
     inDec := inDec g; types := types g |}.

(** [New] *)
Definition New : Gobber :=
  {| outBuf := []; inBuf := []; outEnc := NewEncoder; inDec := NewDecoder;
     types := [] |}.

(** [Init]: the state after the call and the returned error.  The deferred
    [outBuf.Reset()] is registered only once the encode succeeded. *)
Definition Init (g : Gobber) (msg : Msg) : Gobber * option Err :=
  let types1 := types g ++ [msg] in
  let '(enc, out, e) := enc_Encode (outEnc g) msg in
  let outBuf1 := outBuf g ++ out in
  match e with
  | Some err =>
      ({| outBuf := outBuf1; inBuf := inBuf g; outEnc := enc;
          inDec := inDec g; types := types1 |}, Some err)
  | None =>
      let inBuf1 := inBuf g ++ outBuf1 in
      let '(dec, rest, e2) := dec_Decode (inDec g) inBuf1 msg in
      ({| outBuf := []; inBuf := rest; outEnc := enc; inDec := dec;
          types := types1 |}, e2)
  end.

(** [Encode]: the state after the call, and the bytes or the error. *)
Definition Encode (g : Gobber) (msg : Msg) : Gobber * (list Byte.byte + Err) :=
  let '(enc, out, e) := enc_Encode (outEnc g) msg in
  let g' := {| outBuf := []; inBuf := inBuf g; outEnc := enc;
               inDec := inDec g; types := types g |} in
  match e with
  | Some err => (g', inr err)
  | None => (g', inl (outBuf g ++ out))
  end.

(** The loop [for _, msg := range oldTypes { if err := g.Init(msg); err !=
    nil { panic(err) } }]: stops at the first failing [Init]. *)
Fixpoint init_all (ts : list Msg) (g : Gobber) : Gobber * option Err :=
  match ts with
  | [] => (g, None)
  | msg :: ts' =>
      match Init g msg with
      | (g', None) => init_all ts' g'
      | (g', Some err) => (g', Some err)
      end
  end.

(** How a call of [Decode] ends: it returns nil or an error, or panics. *)
Inductive decode_end :=
| Returned (err : option Err)
| Panicked (err : Err).

(** [Decode].  The deferred [inBuf.Reset()] runs when the call ends, also
    when it ends in a panic. *)
Definition Decode (g : Gobber) (data : list Byte.byte) (msg : Msg)
  : Gobber * decode_end :=
  let '(dec, rest, e) := dec_Decode (inDec g) (inBuf g ++ data) msg in
  match e with
  | None =>
      ({| outBuf := outBuf g; inBuf := []; outEnc := outEnc g; inDec := dec;
          types := types g |}, Returned None)
  | Some err =>
      let oldTypes := types g in
      let g1 := {| outBuf := outBuf g; inBuf := rest; outEnc := NewEncoder;
                   inDec := NewDecoder; types := types g |} in
      match init_all oldTypes g1 with
      | (g2, Some err') => (set_inBuf [] g2, Panicked err')
      | (g2, None) => (set_inBuf [] (set_types oldTypes g2), Returned (Some err))
      end
  end.

(** The calls a user of the gobber makes. *)
Inductive op :=
| DoInit (msg : Msg)
| DoEncode (msg : Msg)
| DoDecode (data : list Byte.byte) (msg : Msg).

(** A sequence of calls on one gobber; [None] when a [Decode] panicked.
    The errors the calls return are the callers' business and do not stop
    the sequence. *)
Fixpoint run (g : Gobber) (ops : list op) : option Gobber :=
  match ops with
  | [] => Some g
  | DoInit msg :: ops' => run (Init g msg).1 ops'
  | DoEncode msg :: ops' => run (Encode g msg).1 ops'
  | DoDecode data msg :: ops' =>
      match Decode g data msg with
      | (g', Returned _) => run g' ops'
      | (_, Panicked _) => None
      end
  end.

(** The messages passed to [Init], in call order. *)
Fixpoint inits (ops : list op) : list Msg :=
  match ops with
  | [] => []
  | DoInit msg :: ops' => msg :: inits ops'
  | _ :: ops' => inits ops'
  end.

(** *** The type list *)

Lemma Init_types g msg : types (Init g msg).1 = types g ++ [msg].
Proof.
  unfold Init. destruct (enc_Encode (outEnc g) msg) as [[enc out] [err|]].
  - reflexivity.
  - destruct (dec_Decode _ _ msg) as [[dec rest] e2]. reflexivity.
Qed.

Lemma init_all_types ts : forall g g',
  init_all ts g = (g', None) -> types g' = types g ++ ts.
Proof.
  induction ts as [|msg ts IH]; intros g g' E; cbn in E.
  - injection E as <-. rewrite app_nil_r. reflexivity.
  - pose proof (Init_types g msg) as Ht.
    destruct (Init g msg) as [g1 [err|]]; [discriminate|].
    rewrite (IH _ _ E). cbn in Ht. rewrite Ht, <- app_assoc. reflexivity.
Qed.

(** When re-initialisation panics, the list holds the old types followed by
    those passed to [Init] so far, the failing one included. *)
Lemma init_all_types_panic ts : forall g g' err,
  init_all ts g = (g', Some err) ->
  exists k, (k < length ts)%nat /\ types g' = types g ++ take (S k) ts.
Proof.
  induction ts as [|msg ts IH]; intros g g' err E; cbn in E.
  - discriminate.
  - pose proof (Init_types g msg) as Ht.
    destruct (Init g msg) as [g1 [err1|]].
    + injection E as <- <-. exists 0%nat. cbn. split; [lia|exact Ht].
    + destruct (IH _ _ _ E) as (k & Hk & Hty). exists (S k).
      split; [cbn; lia|]. rewrite Hty. cbn in Ht. rewrite Ht, <- app_assoc.
      reflexivity.
Qed.

Lemma Decode_returned_types g data msg g' r :
  Decode g data msg = (g', Returned r) -> types g' = types g.
Proof.
  unfold Decode.
  destruct (dec_Decode (inDec g) (inBuf g ++ data) msg) as [[dec rest] [err|]].
  - destruct (init_all _ _) as [g2 [err'|]]; intros E; [discriminate|].
    injection E as <- _. reflexivity.
  - intros E. injection E as <- _. reflexivity.
Qed.

Lemma Encode_types g msg : types (Encode g msg).1 = types g.
Proof.
  unfold Encode. destruct (enc_Encode (outEnc g) msg) as [[enc out] [err|]];
    reflexivity.
Qed.

Lemma run_types ops : forall g g',
  run g ops = Some g' -> types g' = types g ++ inits ops.
Proof.
  induction ops as [|[msg|msg|data msg] ops IH]; intros g g' E; cbn in E.
  - injection E as <-. cbn. rewrite app_nil_r. reflexivity.
  - rewrite (IH _ _ E), Init_types, <- app_assoc. reflexivity.
  - rewrite (IH _ _ E), Encode_types. reflexivity.
  - destruct (Decode g data msg) as [g1 [r|err]] eqn:Ed; [|discriminate].
    rewrite (IH _ _ E). cbn. f_equal. eapply Decode_returned_types, Ed.
Qed.

(** X17. After any sequence of [Init], [Encode] and [Decode] calls on a new
    gobber in which no [Decode] panicked, the type list is the messages
    passed to [Init], in call order; and a further [Decode] that returns,
    with nil or with an error, leaves the list as it found it. *)
Theorem Decode_keeps_registered_types (ops : list op) (g : Gobber) :
  run New ops = Some g ->
  types g = inits ops /\
  forall data msg g' r,
    Decode g data msg = (g', Returned r) -> types g' = inits ops.
Proof.
  intros E. apply run_types in E. cbn in E. split; [exact E|].
  intros data msg g' r Ed. rewrite <- E. eapply Decode_returned_types, Ed.
Qed.

(** A [Decode] that panics leaves the list longer: the old types, then the
    ones re-initialised so far. *)
Lemma Decode_panicked_types g data msg g' err :
  Decode g data msg = (g', Panicked err) ->
  exists k, (k < length (types g))%nat /\
            types g' = types g ++ take (S k) (types g).
Proof.
  unfold Decode.
  destruct (dec_Decode (inDec g) (inBuf g ++ data) msg) as [[dec rest] [e|]];
    [|discriminate].
  destruct (init_all _ _) as [g2 [err'|]] eqn:Ei; intros E; [|discriminate].
  injection E as <- _. apply init_all_types_panic in Ei. exact Ei.
Qed.

(** *** Recovery after a failed decode *)

(** [Init] looks at the type list only to append to it. *)
Lemma Init_set_types ts g msg :
  Init (set_types ts g) msg =
  (set_types (ts ++ [msg]) (Init g msg).1, (Init g msg).2).
Proof.
  unfold Init, set_types. cbn.
  destruct (enc_Encode (outEnc g) msg) as [[enc out] [err|]]; [reflexivity|].
  destruct (dec_Decode _ _ msg) as [[dec rest] e2]. reflexivity.
Qed.

Lemma init_all_set_types l : forall ts g g',
  init_all l g = (g', None) ->
  init_all l (set_types ts g) = (set_types (ts ++ l) g', None).
Proof.
  induction l as [|msg l IH]; intros ts g g' E; cbn in *.
  - injection E as <-. rewrite app_nil_r. reflexivity.
  - rewrite Init_set_types. destruct (Init g msg) as [g1 [err|]]; [discriminate|].
    cbn. rewrite (IH _ _ _ E), <- app_assoc. reflexivity.
Qed.

(** When the failed decode read the whole input buffer and the output
    buffer is empty, re-initialisation replays the registration on new
    coders: [Decode] returns the decode error and leaves the gobber as it
    was after registering [ts] on a new gobber. *)
Lemma Decode_recovers_when_drained ts g0 g data msg dec err :
  init_all ts New = (g0, None) ->
  types g = ts -> outBuf g = [] ->
  dec_Decode (inDec g) (inBuf g ++ data) msg = (dec, [], Some err) ->
  Decode g data msg = (set_inBuf [] g0, Returned (Some err)).
Proof.
  intros Hreg Hty Hout Hdec. unfold Decode. rewrite Hdec, Hty, Hout.
  change {| outBuf := []; inBuf := []; outEnc := NewEncoder;
            inDec := NewDecoder; types := ts |} with (set_types ts New).
  rewrite (init_all_set_types _ _ _ _ Hreg).
  pose proof (init_all_types _ _ _ Hreg) as Hts. cbn in Hts.
  f_equal. f_equal. unfold set_types. cbn. rewrite <- Hts.
  destruct g0. reflexivity.
Qed.

End WithCodec.
End Gobber.

(** *** A miniature gob, to run the gobber *)

Module GobberRun.
Import Gobber.

(** The wire discipline of encoding/gob in small: the stream is a sequence
    of messages, each a count byte followed by that many bytes; a message
    either defines a type id or carries a value of a type id; an encoder
    defines a type before the first value of it; a decoder reads one message
    at a time, learns the definitions it meets and returns at the first
    value. *)
Record message := { m_type : Byte.byte; m_payload : list Byte.byte }.

Inductive gob_error :=
| ErrEOF | ErrUnexpectedEOF | ErrBadType | ErrDuplicateType | ErrCorrupt
| ErrTooBig.

Definition known (ty : Byte.byte) (tys : list Byte.byte) : bool :=
  existsb (Byte.eqb ty) tys.

Definition count_byte (n : nat) : Byte.byte :=
  match Byte.of_N (N.of_nat n) with
  | Some b => b
  | None => Byte.xff
  end.

Definition typedef_message (ty : Byte.byte) : list Byte.byte :=
  [Byte.x02; Byte.x00; ty].

Definition value_message (m : message) : list Byte.byte :=
  count_byte (2 + length (m_payload m)) :: Byte.x01 :: m_type m :: m_payload m.

Definition mini_Encode (sent : list Byte.byte) (m : message)
  : list Byte.byte * list Byte.byte * option gob_error :=
  if (253 <? length (m_payload m))%nat then (sent, [], Some ErrTooBig)
  else if known (m_type m) sent then (sent, value_message m, None)
  else (m_type m :: sent, typedef_message (m_type m) ++ value_message m, None).

Fixpoint mini_Decode_go (fuel : nat) (tys : list Byte.byte)
    (buf : list Byte.byte) (target : message)
  : list Byte.byte * list Byte.byte * option gob_error :=
  match fuel with
  | O => (tys, buf, Some ErrEOF)
  | S fuel' =>
      match buf with
      | [] => (tys, [], Some ErrEOF)
      | c :: rest =>
          let n := N.to_nat (Byte.to_N c) in
          if (length rest <? n)%nat then (tys, [], Some ErrUnexpectedEOF)
          else
            let body := take n rest in
            let rest' := drop n rest in
            match body with
            | kind :: ty :: payload =>
                if Byte.eqb kind Byte.x00 then
                  match payload with
                  | [] =>
                      if known ty tys then (tys, rest', Some ErrDuplicateType)
                      else mini_Decode_go fuel' (ty :: tys) rest' target
                  | _ => (tys, rest', Some ErrCorrupt)
                  end
                else if Byte.eqb kind Byte.x01 then
                  if known ty tys && Byte.eqb ty (m_type target)
                  then (tys, rest', None)
                  else (tys, rest', Some ErrBadType)
                else (tys, rest', Some ErrCorrupt)
            | _ => (tys, rest', Some ErrCorrupt)
            end
      end
  end.

Definition mini_Decode (tys : list Byte.byte) (buf : list Byte.byte)
    (target : message) :=
  mini_Decode_go (S (length buf)) tys buf target.

#[export] Instance mini_gob : GobCodec message gob_error := {|
  enc_state := list Byte.byte;
  dec_state := list Byte.byte;
  NewEncoder := [];
  NewDecoder := [];
  enc_Encode := mini_Encode;
  dec_Decode := mini_Decode
|}.

(** One registered type, as a stream would register it on both ends. *)
Definition greeting : message :=
  {| m_type := Byte.x41; m_payload := [] |}.

Definition registered : Gobber :=
  {| outBuf := []; inBuf := []; outEnc := [Byte.x41]; inDec := [Byte.x41];
     types := [greeting] |}.

(** A value of type 0x41 with a two byte payload. *)
Definition good_frame : list Byte.byte :=
  [Byte.x04; Byte.x01; Byte.x41; Byte.x48; Byte.x69].

(** A complete message carrying a value of a type nobody defined. *)
Definition bad_frame : list Byte.byte := [Byte.x02; Byte.x01; Byte.x63].

Example Init_greeting : Init New greeting = (registered, None).
Proof. reflexivity. Qed.

Example Encode_greeting :
  (Encode registered {| m_type := Byte.x41; m_payload := [Byte.x48; Byte.x69] |}).2
  = inl good_frame.
Proof. reflexivity. Qed.

Example Decode_good_frame :
  Decode registered good_frame greeting = (registered, Returned None).
Proof. reflexivity. Qed.

(** The bad frame alone: the error is returned, the coders are rebuilt and
    the next good frame decodes. *)
Example Decode_bad_then_good :
  Decode registered bad_frame greeting = (registered, Returned (Some ErrBadType)) /\
  Decode (Decode registered bad_frame greeting).1 good_frame greeting
    = (registered, Returned None).
Proof. split; reflexivity. Qed.

Example Decode_recovers_when_drained_run :
  Decode registered bad_frame greeting
    = (set_inBuf [] registered, Returned (Some ErrBadType)).
Proof.
  apply (Decode_recovers_when_drained [greeting] registered registered
           bad_frame greeting [Byte.x41] ErrBadType); reflexivity.
Qed.

(** C1, at a datagram that holds the bad frame and one more byte.  The
    failed decode leaves the byte in the input buffer; the new decoder meets
    it before the re-registration bytes, [Init] fails and [Decode] panics
    instead of returning the decode error; the type list is left with the
    registered type twice. *)
Theorem Decode_trailing_byte_panics :
  Init New greeting = (registered, None) /\
  dec_Decode (inDec registered) (bad_frame ++ [Byte.x7f]) greeting
    = ([Byte.x41], [Byte.x7f], Some ErrBadType) /\
  exists g',
    Decode registered (bad_frame ++ [Byte.x7f]) greeting
      = (g', Panicked ErrUnexpectedEOF) /\
    types g' = [greeting; greeting].
Proof.
  split; [reflexivity|]. split; [reflexivity|].
  eexists. split; reflexivity.
Qed.

(** C10, at the datagram of C1.  The [Decode] that panics in
    re-initialisation never reaches [g.types = oldTypes]: the type list is
    left with the registered type twice, which is not the sequence passed to
    [Init]; and a later [Decode] that fails and returns restores that
    doubled list, so the extra entry stays. *)
Theorem Decode_panic_leaves_types_doubled :
  run New [DoInit greeting] = Some registered /\
  inits [DoInit greeting] = [greeting] /\
  exists g' g'',
    Decode registered (bad_frame ++ [Byte.x7f]) greeting
      = (g', Panicked ErrUnexpectedEOF) /\
    types g' = [greeting; greeting] /\
    types g' <> inits [DoInit greeting] /\
    Decode g' bad_frame greeting = (g'', Returned (Some ErrBadType)) /\
    types g'' = [greeting; greeting].
Proof.
  split; [reflexivity|]. split; [reflexivity|].
  eexists _, _. split; [reflexivity|]. split; [reflexivity|].
  split; [discriminate|]. split; reflexivity.
Qed.

Lemma Decode_keeps_registered_types_witness :
  types registered = [greeting] /\
  forall data msg g' r,
    Decode registered data msg = (g', Returned r) -> types g' = [greeting].
Proof.
  apply (Decode_keeps_registered_types
           [DoInit greeting; DoDecode bad_frame greeting;
            DoEncode greeting; DoDecode good_frame greeting] registered).
  reflexivity.
Defined.

End GobberRun.

(** ** Accepting a relay connection ([Relay.acceptRelay]) *)

Module Relay.

(** What [acceptRelay] does to the socket, the carrier and the worker pool,
    in program order. *)
Inductive event :=
| SockLock
| ProcInit
| IrisConnect (app : string)
| SendInit
| SockClose
| WorkersStart
| GoProcess
| SockUnlock.

#[export] Instance event_eq_dec : EqDecision event.
Proof. solve_decision. Defined.

Section Accept.
(** Errors, and the connection handle that [iris.Connect] returns. *)
Variables Err Conn : Type.

(** The answers of the three handshake steps: [rel.procInit()],
    [r.iris.Connect(app, rel)] and [rel.sendInit()]. *)
Record handshake := {
  procInit : Err + string;
  Connect : string -> Err + Conn;
  sendInit : option Err
}.

(** What is returned: the relay with its carrier connection and a nil
    error, or nil and the error. *)
Inductive accepted :=
| Relayed (conn : Conn)
| Failed (err : Err).

(** Membership of an event in a trace that is written out. *)
Ltac in_trace :=
  repeat split; rewrite ?elem_of_cons, ?elem_of_nil; intuition congruence.

(** [rel.drop()] *)
Definition drop : list event := [SockClose].

(** [acceptRelay]; the deferred [sockLock.Unlock()] ends every path. *)
Definition acceptRelay (h : handshake) : list event * accepted :=
  let locked := [SockLock] in
  match procInit h with
  | inl err => (locked ++ [ProcInit] ++ drop ++ [SockUnlock], Failed err)
  | inr app =>
      match Connect h app with
      | inl err =>
          (locked ++ [ProcInit; IrisConnect app] ++ drop ++ [SockUnlock],
           Failed err)
      | inr conn =>
          match sendInit h with
          | Some err =>
              (locked ++ [ProcInit; IrisConnect app; SendInit] ++ drop
                 ++ [SockUnlock], Failed err)
          | None =>
              (locked ++ [ProcInit; IrisConnect app; SendInit]
                 ++ [WorkersStart; GoProcess] ++ [SockUnlock], Relayed conn)
          end
      end
  end.

(** The error of the first handshake step that fails, if one does. *)
Definition handshake_error (h : handshake) : option Err :=
  match procInit h with
  | inl err => Some err
  | inr app =>
      match Connect h app with
      | inl err => Some err
      | inr _ => sendInit h
      end
  end.

(** C7. If a handshake step fails, [acceptRelay] closes the socket and
    returns that step's error, and neither the worker pool nor the reader
    loop is started; they are started only when all three steps succeed. *)
Theorem acceptRelay_handshake (h : handshake) :
  (forall err, handshake_error h = Some err ->
     (acceptRelay h).2 = Failed err /\
     SockClose ∈ (acceptRelay h).1 /\
     (WorkersStart ∉ (acceptRelay h).1) /\
     (GoProcess ∉ (acceptRelay h).1)) /\
  ((WorkersStart ∈ (acceptRelay h).1 \/ GoProcess ∈ (acceptRelay h).1) ->
     exists app conn,
       procInit h = inr app /\ Connect h app = inr conn /\ sendInit h = None /\
       (acceptRelay h).2 = Relayed conn /\
       SockClose ∉ (acceptRelay h).1).
Proof.
  unfold handshake_error, acceptRelay, drop.
  destruct (procInit h) as [e1|app]; cbn.
  - split; [intros err [= <-]|]; in_trace.
  - destruct (Connect h app) as [e2|conn] eqn:Ec; cbn.
    + split; [intros err [= <-]|]; in_trace.
    + destruct (sendInit h) as [e3|]; cbn.
      * split; [intros err [= <-]|]; in_trace.
      * split; [discriminate|].
        intros _. exists app, conn. split; [reflexivity|].
        split; [exact Ec|]. in_trace.
Qed.

End Accept.

(** A client whose init is read and whose carrier connection opens, but
    whose acknowledgement cannot be sent; and one with no failure. *)
Definition ack_fails : handshake string nat :=
  {| procInit := inr "app"%string; Connect := fun _ => inr 5%nat;
     sendInit := Some "broken pipe"%string |}.

Definition all_fine : handshake string nat :=
  {| procInit := inr "app"%string; Connect := fun _ => inr 5%nat;
     sendInit := None |}.

Example acceptRelay_ack_fails :
  acceptRelay string nat ack_fails =
    ([SockLock; ProcInit; IrisConnect "app"; SendInit; SockClose; SockUnlock],
     Failed string nat "broken pipe"%string).
Proof. reflexivity. Qed.

Example acceptRelay_all_fine :
  acceptRelay string nat all_fine =
    ([SockLock; ProcInit; IrisConnect "app"; SendInit; WorkersStart; GoProcess;
      SockUnlock], Relayed string nat 5%nat).
Proof. reflexivity. Qed.

Lemma acceptRelay_handshake_witness :
  ((acceptRelay string nat ack_fails).2 = Failed string nat "broken pipe"%string /\
   SockClose ∈ (acceptRelay string nat ack_fails).1 /\
   (WorkersStart ∉ (acceptRelay string nat ack_fails).1) /\
   (GoProcess ∉ (acceptRelay string nat ack_fails).1)) /\
  (exists app conn,
     procInit string nat all_fine = inr app /\
     Connect string nat all_fine app = inr conn /\
     sendInit string nat all_fine = None /\
     (acceptRelay string nat all_fine).2 = Relayed string nat conn /\
     SockClose ∉ (acceptRelay string nat all_fine).1).
Proof.
  split.
  - apply (proj1 (acceptRelay_handshake string nat ack_fails)). reflexivity.
  - apply (proj2 (acceptRelay_handshake string nat all_fine)).
    left. vm_compute. do 4 right. left.
Defined.

End Relay.

(** ** Topic subscriptions of the iris overlay ([Overlay.subscribe],
       [Overlay.unsubscribe]) *)

Module Iris.

(** Calls into the scribe overlay, and the two log lines. *)
Inductive event :=
| ScribeSubscribe (topic : string)
| ScribeUnsubscribe (topic : string)
| LogNoTopic (topic : string)
| LogNoSubscription (topic : string) (id : N).

Section WithScribe.
(** The errors of the scribe package; [ErrNotSubscribed] belongs to the
    iris package, which scribe does not import. *)
Variable ScribeErr : Type.

Inductive error :=
| ErrNotSubscribed
| ErrScribe (e : ScribeErr).

(** The subscription fields of [type Overlay struct]: the live members of
    each topic and the per-topic locks. *)
Record Overlay := {
  subLive : gmap string (list N);
  subLock : gmap string unit
}.

(** The maps as [New] makes them. *)
Definition New : Overlay := {| subLive := ∅; subLock := ∅ |}.

(** [o.subLive[topic]]: nil when the topic has no entry. *)
Definition live (o : Overlay) (topic : string) : list N :=
  match subLive o !! topic with
  | Some subs => subs
  | None => []
  end.

(** [subscribe]; [answer] is what [o.scribe.Subscribe(topic)] returns when
    it is called. *)
Definition subscribe (answer : option ScribeErr) (o : Overlay) (id : N)
    (topic : string) : Overlay * list event * option error :=
  match subLock o !! topic with
  | None =>
      ({| subLive := <[topic := [id]]> (subLive o);
          subLock := <[topic := tt]> (subLock o) |},
       [ScribeSubscribe topic],
       option_map ErrScribe answer)
  | Some _ =>
      ({| subLive := <[topic := live o topic ++ [id]]> (subLive o);
          subLock := subLock o |},
       [], None)
  end.

(** The index at which [for i, subId := range subs] finds [id]. *)
Fixpoint index_of (id : N) (subs : list N) : option nat :=
  match subs with
  | [] => None
  | subId :: subs' =>
      if (id =? subId)%N then Some O else option_map S (index_of id subs')
  end.

(** [unsubscribe]; [answer] is what [o.scribe.Unsubscribe(topic)] returns
    when it is called. *)
Definition unsubscribe (answer : option ScribeErr) (o : Overlay) (id : N)
    (topic : string) : Overlay * list event * option error :=
  match subLock o !! topic with
  | None => (o, [LogNoTopic topic], Some ErrNotSubscribed)
  | Some _ =>
      let subs := live o topic in
      let '(subs', done) :=
        match index_of id subs with
        | Some i => (take i subs ++ drop (S i) subs, true)
        | None => (subs, false)
        end in
      let stored := <[topic := subs']> (subLive o) in
      if negb done then
        ({| subLive := stored; subLock := subLock o |},
         [LogNoSubscription topic id], Some ErrNotSubscribed)
      else if (length subs' =? 0)%nat then
        ({| subLive := delete topic stored; subLock := delete topic (subLock o) |},
         [ScribeUnsubscribe topic], option_map ErrScribe answer)
      else
        ({| subLive := stored; subLock := subLock o |}, [], None)
  end.

(** The overlays that calls of [subscribe] and [unsubscribe] lead to. *)
Inductive reachable : Overlay -> Prop :=
| reach_New : reachable New
| reach_subscribe answer o id topic :
    reachable o -> reachable (subscribe answer o id topic).1.1
| reach_unsubscribe answer o id topic :
    reachable o -> reachable (unsubscribe answer o id topic).1.1.

(** A topic has a member list exactly when it has a lock. *)
Definition locks_match (o : Overlay) : Prop :=
  forall topic, subLive o !! topic = None <-> subLock o !! topic = None.

Lemma index_of_None id subs : index_of id subs = None <-> id ∉ subs.
Proof.
  induction subs as [|s subs IH]; cbn.
  - split; [intros _ Hin; inversion Hin|reflexivity].
  - rewrite not_elem_of_cons. destruct (N.eqb_spec id s) as [->|Hne].
    + split; [discriminate|]. intros [Hne _]. congruence.
    + destruct (index_of id subs) as [i|]; cbn.
      * split; [discriminate|]. intros [_ Hnot]. apply IH in Hnot. discriminate.
      * split; [|reflexivity]. intros _. split; [exact Hne|]. apply IH. reflexivity.
Qed.

Lemma index_of_first id l1 l2 :
  id ∉ l1 -> index_of id (l1 ++ id :: l2) = Some (length l1).
Proof.
  induction l1 as [|s l1 IH]; intros Hnot; cbn.
  - rewrite N.eqb_refl. reflexivity.
  - apply not_elem_of_cons in Hnot as [Hne Hnot].
    destruct (N.eqb_spec id s) as [->|_]; [congruence|].
    rewrite (IH Hnot). reflexivity.
Qed.

Lemma splice_first (id : N) (l1 l2 : list N) :
  take (length l1) (l1 ++ id :: l2) ++ drop (S (length l1)) (l1 ++ id :: l2)
  = l1 ++ l2.
Proof.
  rewrite take_app_length.
  change (id :: l2) with ([id] ++ l2). rewrite app_assoc.
  replace (S (length l1)) with (length (l1 ++ [id])) by (rewrite length_app; cbn; lia).
  rewrite drop_app_length. reflexivity.
Qed.

Lemma locks_match_New : locks_match New.
Proof. intros topic. cbn. rewrite !lookup_empty. tauto. Qed.

Lemma locks_match_subscribe answer o id topic :
  locks_match o -> locks_match (subscribe answer o id topic).1.1.
Proof.
  intros Hm t. unfold subscribe.
  destruct (subLock o !! topic) as [u|] eqn:El; cbn.
  - destruct (decide (topic = t)) as [<-|Hne].
    + rewrite lookup_insert_eq, El. split; discriminate.
    + rewrite lookup_insert_ne by exact Hne. apply Hm.
  - destruct (decide (topic = t)) as [<-|Hne].
    + rewrite !lookup_insert_eq. split; discriminate.
    + rewrite !lookup_insert_ne by exact Hne. apply Hm.
Qed.

Lemma locks_match_unsubscribe answer o id topic :
  locks_match o -> locks_match (unsubscribe answer o id topic).1.1.
Proof.
  intros Hm t. unfold unsubscribe.
  destruct (subLock o !! topic) as [u|] eqn:El; cbn; [|apply Hm].
  destruct (index_of id (live o topic)) as [i|]; cbn.
  - destruct (length _ =? 0)%nat; cbn.
    + destruct (decide (topic = t)) as [<-|Hne].
      * rewrite !lookup_delete_eq. tauto.
      * rewrite !lookup_delete_ne, lookup_insert_ne by exact Hne. apply Hm.
    + destruct (decide (topic = t)) as [<-|Hne].
      * rewrite lookup_insert_eq, El. split; discriminate.
      * rewrite lookup_insert_ne by exact Hne. apply Hm.
  - destruct (decide (topic = t)) as [<-|Hne].
    + rewrite lookup_insert_eq, El. split; discriminate.
    + rewrite lookup_insert_ne by exact Hne. apply Hm.
Qed.

Lemma reachable_locks_match o : reachable o -> locks_match o.
Proof.
  induction 1 as [|answer o id topic _ IH|answer o id topic _ IH].
  - apply locks_match_New.
  - apply locks_match_subscribe, IH.
  - apply locks_match_unsubscribe, IH.
Qed.

(** C2, as the code has it.  A second [subscribe] of the same id to the
    same topic calls nothing on scribe and returns nil, and it appends the id
    to the topic's member list once more: the list after the second call is
    the list after the first call, which holds the id, followed by the
    id. *)
Theorem subscribe_again_appends (answer1 answer2 : option ScribeErr)
    (o : Overlay) (id : N) (topic : string) :
  let o1 := (subscribe answer1 o id topic).1.1 in
  id ∈ live o1 topic /\
  subscribe answer2 o1 id topic =
    ({| subLive := <[topic := live o1 topic ++ [id]]> (subLive o1);
        subLock := subLock o1 |}, [], None).
Proof.
  cbn zeta. split.
  - unfold subscribe, live.
    destruct (subLock o !! topic) as [u|]; cbn; rewrite lookup_insert_eq.
    + apply elem_of_app. right. left.
    + left.
  - unfold subscribe at 1.
    assert (Hl : is_Some (subLock (subscribe answer1 o id topic).1.1 !! topic)).
    { unfold subscribe. destruct (subLock o !! topic) as [u|] eqn:El; cbn.
      - rewrite El. eauto.
      - rewrite lookup_insert_eq. eauto. }
    destruct Hl as [u ->]. reflexivity.
Qed.

(** C4. When [unsubscribe] removes the only member of a topic, the topic
    leaves both maps and [scribe.Unsubscribe] is called once; when members
    remain, the shortened list is stored, the lock stays and scribe is not
    called. *)
Theorem unsubscribe_last_member (answer : option ScribeErr) (o : Overlay)
    (id : N) (topic : string) (l1 l2 : list N) :
  reachable o ->
  subLive o !! topic = Some (l1 ++ id :: l2) ->
  id ∉ l1 ->
  (l1 ++ l2 = [] ->
     unsubscribe answer o id topic =
       ({| subLive := delete topic (subLive o);
           subLock := delete topic (subLock o) |},
        [ScribeUnsubscribe topic], option_map ErrScribe answer)) /\
  (l1 ++ l2 <> [] ->
     unsubscribe answer o id topic =
       ({| subLive := <[topic := l1 ++ l2]> (subLive o); subLock := subLock o |},
        [], None) /\
     is_Some (subLock o !! topic)).
Proof.
  intros Hr Hlive Hnot.
  assert (Hlock : is_Some (subLock o !! topic)).
  { destruct (subLock o !! topic) as [u|] eqn:El; [eauto|].
    apply (reachable_locks_match o Hr) in El. congruence. }
  unfold unsubscribe, live. destruct Hlock as [u Hu]. rewrite Hu, Hlive.
  rewrite (index_of_first id l1 l2 Hnot), splice_first. cbn [negb].
  split.
  - intros E. rewrite E. cbn. rewrite delete_insert_eq. reflexivity.
  - intros Hne. destruct (l1 ++ l2) as [|x l] eqn:El; [congruence|].
    cbn. split; [reflexivity|eauto].
Qed.

(** C6. [unsubscribe] returns [ErrNotSubscribed] exactly when the topic has
    no member list or the id is not in it, and then the two maps are as
    they were. *)
Theorem unsubscribe_not_subscribed (answer : option ScribeErr) (o : Overlay)
    (id : N) (topic : string) :
  reachable o ->
  ((unsubscribe answer o id topic).2 = Some ErrNotSubscribed <->
   (subLive o !! topic = None \/
    exists subs, subLive o !! topic = Some subs /\ id ∉ subs)) /\
  ((unsubscribe answer o id topic).2 = Some ErrNotSubscribed ->
   (unsubscribe answer o id topic).1.1 = o).
Proof.
  intros Hr. pose proof (reachable_locks_match o Hr topic) as Hm.
  unfold unsubscribe, live.
  destruct (subLock o !! topic) as [u|] eqn:El.
  - destruct (subLive o !! topic) as [subs|] eqn:Es;
      [|destruct Hm as [Hm _]; specialize (Hm eq_refl); discriminate].
    destruct (index_of id subs) as [i|] eqn:Ei; cbn [negb].
    + assert (Hin : id ∈ subs).
      { destruct (decide (id ∈ subs)) as [Hin|Hnot]; [exact Hin|].
        apply index_of_None in Hnot. congruence. }
      destruct (length _ =? 0)%nat; cbn.
      * split.
        -- split.
           ++ destruct answer; discriminate.
           ++ intros [E|(subs' & E & Hnot)]; [discriminate|].
              injection E as <-. contradiction.
        -- destruct answer; discriminate.
      * split; [|discriminate]. split; [discriminate|].
        intros [E|(subs' & E & Hnot)]; [discriminate|].
        injection E as <-. contradiction.
    + cbn. split.
      * split; [|reflexivity]. intros _. right. exists subs.
        split; [reflexivity|]. apply index_of_None, Ei.
      * intros _. rewrite (insert_id _ _ _ Es). destruct o. reflexivity.
  - cbn. split; [|reflexivity]. split; [|reflexivity].
    intros _. left. apply Hm. reflexivity.
Qed.

End WithScribe.

(** *** Runs *)

(** Connection 7 subscribes to ["news"] on a new overlay. *)
Definition once : Overlay :=
  (subscribe string None (New) 7 "news").1.1.

Definition twice : Overlay :=
  (subscribe string None once 7 "news").1.1.

Example subscribe_first_cascades :
  subscribe string None New 7 "news" =
    ({| subLive := {["news"%string := [7%N]]}; subLock := {["news"%string := tt]} |},
     [ScribeSubscribe "news"], None).
Proof. reflexivity. Qed.

(** C2 fails as stated: after subscribing connection 7 to ["news"] twice
    the member list holds 7 twice, so the subscriber state is not the state
    after one call. *)
Lemma subscribe_twice_not_idempotent :
  subLive once !! "news"%string = Some [7%N] /\
  subLive twice !! "news"%string = Some [7%N; 7%N] /\
  twice <> once.
Proof.
  split; [reflexivity|]. split; [reflexivity|].
  intros E. apply (f_equal (fun o => subLive o !! "news"%string)) in E.
  vm_compute in E. discriminate.
Qed.

(** One [unsubscribe] after the double subscription leaves 7 subscribed
    and does not call scribe; the second one drops the topic. *)
Example unsubscribe_after_twice :
  unsubscribe string None twice 7 "news" = (once, [], None) /\
  unsubscribe string None once 7 "news" = (New, [ScribeUnsubscribe "news"], None).
Proof. split; reflexivity. Qed.

Lemma reachable_once : reachable string once.
Proof. apply reach_subscribe, reach_New. Qed.

Definition two_members : Overlay :=
  (subscribe string None once 8 "news").1.1.

Lemma reachable_two_members : reachable string two_members.
Proof. apply reach_subscribe, reachable_once. Qed.

Lemma unsubscribe_last_member_witness :
  unsubscribe string None once 7 "news" =
    ({| subLive := delete "news"%string (subLive once);
        subLock := delete "news"%string (subLock once) |},
     [ScribeUnsubscribe "news"], None) /\
  unsubscribe string None two_members 7 "news" =
    ({| subLive := <["news"%string := [8%N]]> (subLive two_members);
        subLock := subLock two_members |}, [], None).
Proof.
  split.
  - refine (proj1 (unsubscribe_last_member string None once 7 "news" [] []
                     reachable_once _ _) _).
    + reflexivity.
    + intros Hin. inversion Hin.
    + reflexivity.
  - refine (proj1 (proj2 (unsubscribe_last_member string None two_members 7
                            "news" [] [8%N] reachable_two_members _ _) _)).
    + reflexivity.
    + intros Hin. inversion Hin.
    + discriminate.
Defined.

Lemma unsubscribe_not_subscribed_witness :
  ((unsubscribe string None once 9 "news").2 = Some (ErrNotSubscribed string) <->
   (subLive once !! "news"%string = None \/
    exists subs, subLive once !! "news"%string = Some subs /\ 9%N ∉ subs)) /\
  ((unsubscribe string None once 9 "news").2 = Some (ErrNotSubscribed string) ->
   (unsubscribe string None once 9 "news").1.1 = once).
Proof.
  apply (unsubscribe_not_subscribed string None once 9 "news").
  apply reach_subscribe, reach_New.
Defined.

Example unsubscribe_stranger :
  unsubscribe string None once 9 "news" =
    (once, [LogNoSubscription "news" 9], Some (ErrNotSubscribed string)) /\
  unsubscribe string None once 7 "sport" =
    (once, [LogNoTopic "sport"], Some (ErrNotSubscribed string)).
Proof. split; reflexivity. Qed.

End Iris.

(** ** Further laws of the heartbeat handlers *)

Module CarrierLaws.
Import BigText Carrier.

(** X1. Whatever the node id, [Dead] splits the key that [monitor] builds
    into [topic + node / 2^S] and [node mod 2^S]: a node id that does not
    fit the overlay space is taken for a node of a later topic, a negative
    one for a node of an earlier topic. *)
Theorem dead_split_any_node (S : N) (topic node : Z) :
  MonitorKey.dead_split S (MonitorKey.monitor_id S topic node) =
  (topic + node / 2 ^ Z.of_N S, node mod 2 ^ Z.of_N S).
Proof.
  pose proof (MonitorKey.pow2_space_pos S) as Hp.
  unfold MonitorKey.dead_split.
  rewrite (MonitorKey.monitor_id_mul S topic node).
  rewrite Z.shiftr_div_pow2, Z.shiftl_mul_pow2 by lia.
  rewrite Z.div_add_l by lia. f_equal.
  rewrite (Z.mod_eq node (2 ^ Z.of_N S)) by lia. ring.
Qed.

Section WithTopic.
Context {T : Type} `{TopicOps T}.
Variable OverlaySpace : N.

(** X2. A death event for the key under which [monitor] registered a node
    of a topic is handled for that topic and that node: a parent is
    unmonitored and the topic re-owned, any other node is unsubscribed, and
    for a topic that is gone only a line is logged. *)
Theorem Dead_of_monitor_id (topics : gmap string T) (topic node : Z) :
  0 <= node < 2 ^ Z.of_N OverlaySpace ->
  Dead OverlaySpace topics (MonitorKey.monitor_id OverlaySpace topic node) =
    match topics !! Int_String topic with
    | Some top =>
        if decide (Parent top = Some node)
        then (<[Int_String topic := Reown None top]> topics,
              [HeartUnmonitor (MonitorKey.monitor_id OverlaySpace topic node)])
        else (topics, [HandleUnsubscribe node topic false])
    | None => (topics, [LogTopicDead topic])
    end.
Proof.
  intros Hn. unfold Dead.
  rewrite (MonitorKey.dead_split_monitor_id OverlaySpace topic node Hn).
  destruct (topics !! Int_String topic) as [top|]; [|reflexivity].
  destruct (Parent top) as [parent|].
  - destruct (Z.eqb_spec parent node) as [->|Hne].
    + rewrite decide_True by reflexivity. reflexivity.
    + rewrite decide_False by congruence. reflexivity.
  - rewrite decide_False by discriminate. reflexivity.
Qed.

(** *** When [Beat] runs out of capacities *)

Lemma report_ids_out_of_range self caps ids : forall i reports,
  (i <= length caps)%nat -> (length caps < length ids + i)%nat ->
  report_ids self caps i ids reports = None.
Proof.
  induction ids as [|id ids IH]; intros i reports Hi Hlen; cbn in *.
  - lia.
  - destruct (caps !! i) as [cap|] eqn:Ec; [|reflexivity].
    apply IH; [|lia]. apply lookup_lt_Some in Ec. lia.
Qed.

Lemma collect_reports_None tops : forall reports,
  collect_reports tops reports = None <->
  exists top, top ∈ tops /\
    (length (GenerateReport top).2 < length (GenerateReport top).1)%nat.
Proof.
  induction tops as [|top tops IH]; intros reports; cbn.
  - split; [discriminate|]. intros (top & Hin & _). inversion Hin.
  - destruct (GenerateReport top) as [ids caps] eqn:Eg.
    destruct (le_lt_dec (length ids) (length caps)) as [Hle|Hgt].
    + destruct (report_ids_in_range (Self top) caps ids 0 reports)
        as [mid ->]; [lia|].
      rewrite IH. split.
      * intros (top' & Hin & Hlt). exists top'. split; [right; exact Hin|exact Hlt].
      * intros (top' & Hin & Hlt). apply elem_of_cons in Hin as [->|Hin].
        -- rewrite Eg in Hlt. cbn in Hlt. lia.
        -- eauto.
    + rewrite report_ids_out_of_range by lia. split; [|reflexivity].
      intros _. exists top. split; [left|]. rewrite Eg. exact Hgt.
Qed.

(** X4. [Beat] panics on [caps[i]] exactly when some topic generates more
    node ids than capacities. *)
Theorem Beat_index_panic_iff (topics : gmap string T) :
  Beat topics = BeatPanic IndexOutOfRange <->
  exists k top, topics !! k = Some top /\
    (length (GenerateReport top).2 < length (GenerateReport top).1)%nat.
Proof.
  assert (Hmem : (exists top, top ∈ (map_to_list topics).*2 /\
                    (length (GenerateReport top).2 < length (GenerateReport top).1)%nat)
                 <-> exists k top, topics !! k = Some top /\
                    (length (GenerateReport top).2 < length (GenerateReport top).1)%nat).
  { split.
    - intros (top & Hin & Hlt).
      apply list_elem_of_fmap in Hin as ([k top'] & -> & Hin).
      exists k, top'. split; [apply elem_of_map_to_list, Hin|exact Hlt].
    - intros (k & top & Hk & Hlt). exists top. split; [|exact Hlt].
      apply list_elem_of_fmap. exists (k, top). split; [reflexivity|].
      apply elem_of_map_to_list, Hk. }
  rewrite <- Hmem, <- (collect_reports_None _ ∅). unfold Beat.
  destruct (collect_reports (map_to_list topics).*2 ∅) as [reports|].
  - split; [|discriminate].
    destruct (distribute (map_to_list reports)); discriminate.
  - split; reflexivity.
Qed.

(** *** The shape of the reports *)

Lemma distribute_elem (l : list (string * report)) : forall sends id rep,
  distribute l = Some sends -> SendReport id rep ∈ sends ->
  exists sid, (sid, rep) ∈ l.
Proof.
  induction l as [|[sid0 rep0] l IH]; intros sends id rep E Hin; cbn in E.
  - injection E as <-. inversion Hin.
  - destruct (Int_SetString10 sid0) as [id0|]; [|discriminate].
    destruct (distribute l) as [sends'|]; [|discriminate].
    injection E as <-. apply elem_of_cons in Hin as [E|Hin].
    + injection E as _ <-. exists sid0. left.
    + destruct (IH _ _ _ eq_refl Hin) as [sid Hsid]. exists sid. right. exact Hsid.
Qed.

Lemma subscribe_roots_no_report (tops : list T) id rep :
  SendReport id rep ∉ subscribe_roots tops.
Proof.
  induction tops as [|top tops IH]; cbn.
  - intros Hin. inversion Hin.
  - destruct (Parent top); [exact IH|].
    intros Hin. apply elem_of_cons in Hin as [E|Hin]; [discriminate|].
    exact (IH Hin).
Qed.

(** X5. Every load report that a completed [Beat] sends names at least one
    topic and carries exactly one capacity per topic. *)
Theorem Beat_reports_well_formed (topics topics' : gmap string T)
    (spawned : list spawn) (id : Z) (rep : report) :
  Beat topics = BeatDone topics' spawned ->
  SendReport id rep ∈ spawned ->
  Tops rep <> [] /\ length (Tops rep) = length (Caps rep).
Proof.
  unfold Beat.
  destruct (collect_reports (map_to_list topics).*2 ∅) as [reports|] eqn:Ec;
    [|discriminate].
  destruct (distribute (map_to_list reports)) as [sends|] eqn:Ed; [|discriminate].
  intros E Hin. injection E as _ <-.
  apply elem_of_app in Hin as [Hin|Hin];
    [|exfalso; exact (subscribe_roots_no_report _ _ _ Hin)].
  destruct (distribute_elem _ _ _ _ Ed Hin) as [sid Hsid].
  apply elem_of_map_to_list in Hsid.
  destruct (keys_are_ids_collect _ _ _ keys_are_ids_empty Ec _ _ Hsid) as [id' ->].
  rewrite (collect_reports_lookup id' _ _ _ Ec), lookup_empty in Hsid.
  destruct (expected_pairs id' (map_to_list topics).*2) as [|p ps];
    [discriminate|].
  cbn [extend] in Hsid. injection Hsid as <-. cbn [Tops Caps length].
  split; [discriminate|]. f_equal.
  change (length (fst <$> ps) = length (snd <$> ps)).
  rewrite !length_fmap. reflexivity.
Qed.

End WithTopic.

Import CarrierRun.

Lemma Dead_of_monitor_id_witness :
  Dead 40 CarrierRun.two_topics (MonitorKey.monitor_id 40 9 1) =
    (<[Int_String 9 := Reown None CarrierRun.topic9]> CarrierRun.two_topics,
     [HeartUnmonitor (MonitorKey.monitor_id 40 9 1)]).
Proof.
  refine (eq_trans (Dead_of_monitor_id 40 CarrierRun.two_topics 9 1 _) _).
  - split; [lia | reflexivity].
  - reflexivity.
Defined.

Lemma Beat_reports_well_formed_witness :
  [7; 9] <> [] /\ length [7; 9] = length [3; 5].
Proof.
  refine (Beat_reports_well_formed CarrierRun.two_topics _ _ 1
            {| Tops := [7; 9]; Caps := [3; 5] |} eq_refl _).
  vm_compute. repeat (first [left | right]).
Defined.

End CarrierLaws.

(** ** Further laws of the gobber *)

Module GobberLaws.
Import Gobber.

Section WithCodec.
Context {Msg Err : Type} `{GobCodec Msg Err}.

Lemma Init_ok_outBuf (g g' : Gobber) msg :
  Init g msg = (g', None) -> outBuf g' = [].
Proof.
  unfold Init. destruct (enc_Encode (outEnc g) msg) as [[enc out] [err|]].
  - discriminate.
  - destruct (dec_Decode _ _ msg) as [[dec rest] e2]. intros E.
    injection E as <- _. reflexivity.
Qed.

Lemma init_all_ok_outBuf ts : forall (g g' : Gobber),
  init_all ts g = (g', None) -> outBuf g = [] -> outBuf g' = [].
Proof.
  induction ts as [|msg ts IH]; intros g g' E Hout; cbn in E.
  - injection E as <-. exact Hout.
  - destruct (Init g msg) as [g1 [err|]] eqn:Ei; [discriminate|].
    apply (IH _ _ E). eapply Init_ok_outBuf, Ei.
Qed.

Lemma Encode_buffers (g : Gobber) msg :
  outBuf (Encode g msg).1 = [] /\ inBuf (Encode g msg).1 = inBuf g.
Proof.
  unfold Encode. destruct (enc_Encode (outEnc g) msg) as [[enc out] [err|]];
    split; reflexivity.
Qed.

Lemma Decode_buffers (g g' : Gobber) data msg r :
  outBuf g = [] -> Decode g data msg = (g', Returned r) ->
  outBuf g' = [] /\ inBuf g' = [].
Proof.
  intros Hout. unfold Decode.
  destruct (dec_Decode (inDec g) (inBuf g ++ data) msg) as [[dec rest] [err|]].
  - destruct (init_all _ _) as [g2 [err'|]] eqn:Ei; intros E; [discriminate|].
    injection E as <- _. cbn. split; [|reflexivity].
    apply (init_all_ok_outBuf _ _ _ Ei). exact Hout.
  - intros E. injection E as <- _. cbn. split; [exact Hout|reflexivity].
Qed.

(** X6. Between datagrams the buffers are empty: starting from a gobber
    with empty buffers, after any sequence of [Encode] and [Decode] calls
    that did not panic both buffers are empty again and the type list is
    unchanged, so every [Decode] hands its decoder the datagram alone. *)
Theorem run_keeps_buffers_empty (ops : list op) : forall g g' : Gobber,
  inits ops = [] ->
  outBuf g = [] -> inBuf g = [] ->
  run g ops = Some g' ->
  outBuf g' = [] /\ inBuf g' = [] /\ types g' = types g.
Proof.
  induction ops as [|[msg|msg|data msg] ops IH]; intros g g' Hin Hout Hinb E;
    cbn in *.
  - injection E as <-. auto.
  - discriminate.
  - destruct (Encode_buffers g msg) as [Ho Hi].
    destruct (IH _ _ Hin Ho ltac:(congruence) E) as (? & ? & Ht).
    rewrite Ht, Encode_types. auto.
  - destruct (Decode g data msg) as [g1 [r|err]] eqn:Ed; [|discriminate].
    destruct (Decode_buffers _ _ _ _ _ Hout Ed) as [Ho Hi].
    destruct (IH _ _ Hin Ho Hi E) as (? & ? & Ht).
    rewrite Ht, (Decode_returned_types _ _ _ _ _ Ed). auto.
Qed.



End WithCodec.

Import GobberRun.

Lemma run_keeps_buffers_empty_witness :
  outBuf registered = [] /\ inBuf registered = [] /\
  types registered = types registered.
Proof.
  apply (run_keeps_buffers_empty
           [DoEncode greeting; DoDecode bad_frame greeting;
            DoDecode good_frame greeting] registered registered);
    reflexivity.
Defined.


End GobberLaws.

(** ** Further laws of the relay handshake *)

Module RelayLaws.
Import Relay.

Ltac trace_facts :=
  repeat split; rewrite ?elem_of_cons, ?elem_of_nil; intuition congruence.

Section Accept.
Variables Err Conn : Type.

(** X8. On every path [acceptRelay] takes the socket lock first and
    releases it last, and touches the lock nowhere in between. *)
Theorem acceptRelay_lock_discipline (h : handshake Err Conn) :
  exists mid,
    (acceptRelay Err Conn h).1 = SockLock :: mid ++ [SockUnlock] /\
    (SockLock ∉ mid) /\ (SockUnlock ∉ mid).
Proof.
  unfold acceptRelay, drop.
  destruct (procInit Err Conn h) as [e1|app].
  - exists [ProcInit; SockClose]. trace_facts.
  - destruct (Connect Err Conn h app) as [e2|conn].
    + exists [ProcInit; IrisConnect app; SockClose]. trace_facts.
    + destruct (sendInit Err Conn h) as [e3|].
      * exists [ProcInit; IrisConnect app; SendInit; SockClose]. trace_facts.
      * exists [ProcInit; IrisConnect app; SendInit; WorkersStart; GoProcess].
        trace_facts.
Qed.

(** X9. The handshake stops at the first failure: the carrier connection
    is opened only for the application that the client's init named, and
    the acknowledgement is sent only after the connection was opened. *)
Theorem acceptRelay_steps_in_order (h : handshake Err Conn) :
  (forall app, IrisConnect app ∈ (acceptRelay Err Conn h).1 <->
               procInit Err Conn h = inr app) /\
  (SendInit ∈ (acceptRelay Err Conn h).1 <->
   exists app conn,
     procInit Err Conn h = inr app /\ Connect Err Conn h app = inr conn).
Proof.
  unfold acceptRelay, drop.
  destruct (procInit Err Conn h) as [e1|app]; cbn.
  - split.
    + intros app. trace_facts.
    + split; [trace_facts|]. intros (app & conn & E & _). discriminate.
  - destruct (Connect Err Conn h app) as [e2|conn] eqn:Ec; cbn.
    + split.
      * intros app'. trace_facts.
      * split; [trace_facts|]. intros (app' & conn & [= <-] & E). congruence.
    + destruct (sendInit Err Conn h) as [e3|]; cbn.
      * split.
        -- intros app'. trace_facts.
        -- split; [|trace_facts]. intros _. exists app, conn. auto.
      * split.
        -- intros app'. trace_facts.
        -- split; [|trace_facts]. intros _. exists app, conn. auto.
Qed.

End Accept.
End RelayLaws.

(** ** Further laws of the overlay's subscriptions *)

Module IrisLaws.
Import Iris.

Section WithScribe.
Variable ScribeErr : Type.

(** Every topic in the maps has a lock and at least one member. *)
Definition tidy (o : Overlay) : Prop :=
  forall topic,
    match subLive o !! topic with
    | Some subs => subs <> [] /\ subLock o !! topic = Some tt
    | None => subLock o !! topic = None
    end.

Lemma tidy_New : tidy New.
Proof. intros topic. cbn. rewrite !lookup_empty. reflexivity. Qed.

Lemma tidy_subscribe (answer : option ScribeErr) o id topic :
  tidy o -> tidy (subscribe ScribeErr answer o id topic).1.1.
Proof.
  intros Ht t. unfold subscribe.
  destruct (subLock o !! topic) as [[]|] eqn:El; cbn;
    (destruct (decide (topic = t)) as [<-|Hne];
     [rewrite ?lookup_insert_eq|rewrite ?lookup_insert_ne by exact Hne; apply Ht]).
  - split; [|exact El]. intros E. apply app_eq_nil in E as [_ E]. discriminate.
  - split; [discriminate|reflexivity].
Qed.

Lemma index_of_Some id subs : forall i,
  index_of id subs = Some i ->
  exists l1 l2, subs = l1 ++ id :: l2 /\ (id ∉ l1) /\ i = length l1.
Proof.
  induction subs as [|s subs IH]; intros i E; cbn in E; [discriminate|].
  destruct (N.eqb_spec id s) as [<-|Hne].
  - injection E as <-. exists [], subs. split; [reflexivity|].
    split; [|reflexivity]. intros Hin. inversion Hin.
  - destruct (index_of id subs) as [j|]; [|discriminate].
    injection E as <-. destruct (IH j eq_refl) as (l1 & l2 & -> & Hnot & ->).
    exists (s :: l1), l2. split; [reflexivity|]. split; [|reflexivity].
    apply not_elem_of_cons. split; assumption.
Qed.

Lemma tidy_unsubscribe (answer : option ScribeErr) o id topic :
  tidy o -> tidy (unsubscribe ScribeErr answer o id topic).1.1.
Proof.
  intros Ht t. unfold unsubscribe, live. pose proof (Ht topic) as Htopic.
  destruct (subLock o !! topic) as [[]|] eqn:El; cbn; [|apply Ht].
  destruct (subLive o !! topic) as [subs|] eqn:Es; [|discriminate].
  destruct Htopic as [Hne _].
  destruct (index_of id subs) as [i|]; cbn.
  - destruct (Nat.eqb_spec (length (take i subs ++ drop (S i) subs)) 0)
      as [Hz|Hnz]; cbn.
    + destruct (decide (topic = t)) as [<-|Hd].
      * rewrite !lookup_delete_eq. reflexivity.
      * rewrite !lookup_delete_ne, lookup_insert_ne by exact Hd. apply Ht.
    + destruct (decide (topic = t)) as [<-|Hd].
      * rewrite lookup_insert_eq. split; [|exact El].
        intros E. rewrite E in Hnz. cbn in Hnz. lia.
      * rewrite lookup_insert_ne by exact Hd. apply Ht.
  - destruct (decide (topic = t)) as [<-|Hd].
    + rewrite lookup_insert_eq. split; [exact Hne|exact El].
    + rewrite lookup_insert_ne by exact Hd. apply Ht.
Qed.

(** X10. In every overlay that [subscribe] and [unsubscribe] calls lead to,
    a topic is in the member map exactly when it is in the lock map, and its
    member list is never empty. *)
Theorem reachable_tidy (o : Overlay) (topic : string) :
  reachable ScribeErr o ->
  match subLive o !! topic with
  | Some subs => subs <> [] /\ subLock o !! topic = Some tt
  | None => subLock o !! topic = None
  end.
Proof.
  intros Hr. revert topic. change (tidy o).
  induction Hr as [|answer o id topic _ IH|answer o id topic _ IH].
  - apply tidy_New.
  - apply tidy_subscribe, IH.
  - apply tidy_unsubscribe, IH.
Qed.

Lemma reachable_is_tidy o : reachable ScribeErr o -> tidy o.
Proof.
  induction 1 as [|answer o id topic _ IH|answer o id topic _ IH].
  - apply tidy_New.
  - apply tidy_subscribe, IH.
  - apply tidy_unsubscribe, IH.
Qed.

(** X11. [subscribe] puts the id behind the topic's members and touches no
    other topic; it calls [scribe.Subscribe], and returns what that returns,
    exactly when the topic had no member. *)
Theorem subscribe_adds_member (answer : option ScribeErr) (o : Overlay)
    (id : N) (topic : string) :
  reachable ScribeErr o ->
  live (subscribe ScribeErr answer o id topic).1.1 topic = live o topic ++ [id] /\
  (forall t, t <> topic ->
     subLive (subscribe ScribeErr answer o id topic).1.1 !! t = subLive o !! t /\
     subLock (subscribe ScribeErr answer o id topic).1.1 !! t = subLock o !! t) /\
  (subscribe ScribeErr answer o id topic).1.2 =
    (if decide (live o topic = []) then [ScribeSubscribe topic] else []) /\
  (subscribe ScribeErr answer o id topic).2 =
    (if decide (live o topic = []) then option_map (ErrScribe ScribeErr) answer
     else None).
Proof.
  intros Hr. pose proof (reachable_is_tidy o Hr topic) as Ht.
  unfold subscribe, live in *.
  destruct (subLive o !! topic) as [subs|] eqn:Es.
  - destruct Ht as [Hne ->]. cbn. rewrite lookup_insert_eq.
    rewrite !decide_False by exact Hne.
    repeat split; try reflexivity. apply lookup_insert_ne. congruence.
  - rewrite Ht. cbn. rewrite lookup_insert_eq.
    repeat split; try reflexivity; apply lookup_insert_ne; congruence.
Qed.

Lemma count_occ_splice (id x : N) (l1 l2 : list N) :
  id ∉ l1 ->
  count_occ N.eq_dec (l1 ++ l2) x =
  if decide (x = id) then Nat.pred (count_occ N.eq_dec (l1 ++ id :: l2) x)
  else count_occ N.eq_dec (l1 ++ id :: l2) x.
Proof.
  intros Hnot. rewrite !count_occ_app. destruct (decide (x = id)) as [->|Hne].
  - rewrite count_occ_cons_eq by reflexivity.
    assert (E : count_occ N.eq_dec l1 id = 0%nat).
    { apply count_occ_not_In. intros Hin. apply Hnot, list_elem_of_In, Hin. }
    rewrite E. reflexivity.
  - rewrite count_occ_cons_neq by congruence. reflexivity.
Qed.

(** X12. [unsubscribe] takes one occurrence of the id out of the topic's
    member list, if there is one, and changes nothing else: every other
    member keeps its number of occurrences and no other topic is
    touched. *)
Theorem unsubscribe_removes_one (answer : option ScribeErr) (o : Overlay)
    (id : N) (topic : string) :
  reachable ScribeErr o ->
  (forall x,
     count_occ N.eq_dec (live (unsubscribe ScribeErr answer o id topic).1.1 topic) x =
     if decide (x = id) then Nat.pred (count_occ N.eq_dec (live o topic) x)
     else count_occ N.eq_dec (live o topic) x) /\
  (forall t, t <> topic ->
     subLive (unsubscribe ScribeErr answer o id topic).1.1 !! t = subLive o !! t /\
     subLock (unsubscribe ScribeErr answer o id topic).1.1 !! t = subLock o !! t).
Proof.
  intros Hr. pose proof (reachable_is_tidy o Hr topic) as Ht.
  unfold unsubscribe, live in *.
  destruct (subLive o !! topic) as [subs|] eqn:Es.
  - destruct Ht as [Hne ->].
    destruct (index_of id subs) as [i|] eqn:Ei; cbn [negb].
    + destruct (index_of_Some _ _ _ Ei) as (l1 & l2 & -> & Hnot & ->).
      rewrite splice_first.
      destruct (Nat.eqb_spec (length (l1 ++ l2)) 0) as [Hz|Hnz]; cbn.
      * rewrite lookup_delete_eq. split.
        -- intros x. rewrite <- (count_occ_splice id x l1 l2 Hnot).
           destruct (l1 ++ l2); [reflexivity|discriminate].
        -- intros t Hd.
           rewrite !lookup_delete_ne, lookup_insert_ne by congruence. auto.
      * rewrite lookup_insert_eq. split.
        -- intros x. apply count_occ_splice, Hnot.
        -- intros t Hd. rewrite lookup_insert_ne by congruence. auto.
    + cbn. rewrite lookup_insert_eq. split.
      * intros x. destruct (decide (x = id)) as [->|_]; [|reflexivity].
        assert (E : count_occ N.eq_dec subs id = 0%nat).
        { apply count_occ_not_In. intros Hin.
          apply (proj1 (index_of_None id subs) Ei), list_elem_of_In, Hin. }
        rewrite E. reflexivity.
      * intros t Hd. rewrite lookup_insert_ne by congruence. auto.
  - rewrite Ht. cbn. rewrite Es. split; [|auto].
    intros x. destruct (decide (x = id)); reflexivity.
Qed.

(** X13. Subscribing an id that is not yet a member of the topic and then
    unsubscribing it gives back the overlay as it was; scribe is
    unsubscribed exactly when it was subscribed by the first call. *)
Theorem subscribe_unsubscribe_round_trip (answer1 answer2 : option ScribeErr)
    (o : Overlay) (id : N) (topic : string) :
  reachable ScribeErr o ->
  id ∉ live o topic ->
  (unsubscribe ScribeErr answer2
     (subscribe ScribeErr answer1 o id topic).1.1 id topic).1.1 = o /\
  (unsubscribe ScribeErr answer2
     (subscribe ScribeErr answer1 o id topic).1.1 id topic).1.2 =
    (if decide (live o topic = []) then [ScribeUnsubscribe topic] else []).
Proof.
  intros Hr Hnot. pose proof (reachable_is_tidy o Hr topic) as Ht.
  unfold subscribe, unsubscribe, live in *.
  destruct (subLive o !! topic) as [subs|] eqn:Es.
  - destruct Ht as [Hne El]. rewrite El. cbn. rewrite El, lookup_insert_eq.
    rewrite (index_of_first id subs [] Hnot).
    rewrite (splice_first id subs []), app_nil_r. cbn [negb].
    destruct (Nat.eqb_spec (length subs) 0) as [Hz|Hnz].
    + destruct subs; [congruence|discriminate].
    + cbn. rewrite decide_False by exact Hne. split; [|reflexivity].
      rewrite insert_insert_eq, (insert_id _ _ _ Es). destruct o. reflexivity.
  - rewrite Ht. cbn. rewrite !lookup_insert_eq. cbn.
    rewrite N.eqb_refl. cbn. split; [|reflexivity].
    rewrite !delete_insert_eq, !delete_id by assumption.
    destruct o. reflexivity.
Qed.

(** X14. When [scribe.Subscribe] fails, [subscribe] returns the error but
    keeps the topic with the id as its member; a later [subscribe] to the
    topic then returns nil without calling scribe again. *)
Theorem subscribe_failure_is_kept (e : ScribeErr) (answer : option ScribeErr)
    (o : Overlay) (id id' : N) (topic : string) :
  subLock o !! topic = None ->
  (subscribe ScribeErr (Some e) o id topic).2 = Some (ErrScribe ScribeErr e) /\
  subLive (subscribe ScribeErr (Some e) o id topic).1.1 !! topic = Some [id] /\
  (subscribe ScribeErr answer
     (subscribe ScribeErr (Some e) o id topic).1.1 id' topic).1.2 = [] /\
  (subscribe ScribeErr answer
     (subscribe ScribeErr (Some e) o id topic).1.1 id' topic).2 = None.
Proof.
  intros El. unfold subscribe. rewrite El. cbn.
  rewrite !lookup_insert_eq. cbn. auto.
Qed.

(** *** Sequences of calls *)

#[export] Instance event_eq_dec : EqDecision event.
Proof. solve_decision. Defined.

(** A call of a connection on the overlay, with the answer scribe would
    give if it were called. *)
Inductive request :=
| Subscribe (answer : option ScribeErr) (id : N) (topic : string)
| Unsubscribe (answer : option ScribeErr) (id : N) (topic : string).

Definition serve_one (o : Overlay) (r : request)
  : Overlay * list event * option (error ScribeErr) :=
  match r with
  | Subscribe answer id topic => subscribe ScribeErr answer o id topic
  | Unsubscribe answer id topic => unsubscribe ScribeErr answer o id topic
  end.

(** The overlay after a sequence of calls, and all their events. *)
Fixpoint serve (o : Overlay) (rs : list request) : Overlay * list event :=
  match rs with
  | [] => (o, [])
  | r :: rs' =>
      let '(o1, evs1, _) := serve_one o r in
      let '(o2, evs2) := serve o1 rs' in
      (o2, evs1 ++ evs2)
  end.

Definition calls (ev : event) (evs : list event) : nat :=
  count_occ event_eq_dec evs ev.

Definition locked (o : Overlay) (topic : string) : nat :=
  match subLock o !! topic with
  | Some _ => 1
  | None => 0
  end.

Lemma calls_nil ev : calls ev [] = 0%nat.
Proof. reflexivity. Qed.

Lemma calls_one ev x : calls ev [x] = if decide (x = ev) then 1%nat else 0%nat.
Proof.
  unfold calls. cbn [count_occ].
  destruct (decide (x = ev)); destruct (event_eq_dec x ev); congruence.
Qed.

Lemma serve_one_balance o r topic :
  (calls (ScribeSubscribe topic) (serve_one o r).1.2 + locked o topic =
   calls (ScribeUnsubscribe topic) (serve_one o r).1.2
     + locked (serve_one o r).1.1 topic)%nat.
Proof.
  unfold locked.
  destruct r as [answer id topic'|answer id topic']; cbn [serve_one].
  - unfold subscribe. destruct (subLock o !! topic') as [u|] eqn:El;
      cbn [fst snd subLock]; rewrite ?calls_one, ?calls_nil.
    + reflexivity.
    + destruct (decide (topic' = topic)) as [<-|Hne].
      * rewrite lookup_insert_eq, El.
        repeat case_decide; first [congruence | lia].
      * rewrite lookup_insert_ne by exact Hne.
        repeat case_decide; first [congruence | lia].
  - unfold unsubscribe. destruct (subLock o !! topic') as [u|] eqn:El;
      cbn [fst snd subLock]; rewrite ?calls_one, ?calls_nil.
    + destruct (index_of id (live o topic')) as [i|]; cbn [negb].
      * destruct (length _ =? 0)%nat; cbn [fst snd subLock];
          rewrite ?calls_one, ?calls_nil; [|reflexivity].
        destruct (decide (topic' = topic)) as [<-|Hne].
        -- rewrite lookup_delete_eq, El.
           repeat case_decide; first [congruence | lia].
        -- rewrite lookup_delete_ne by exact Hne.
           repeat case_decide; first [congruence | lia].
      * cbn [fst snd subLock]. rewrite ?calls_one.
        repeat case_decide; first [congruence | lia].
    + repeat case_decide; first [congruence | lia].
Qed.

Lemma serve_balance rs : forall o topic,
  (calls (ScribeSubscribe topic) (serve o rs).2 + locked o topic =
   calls (ScribeUnsubscribe topic) (serve o rs).2
     + locked (serve o rs).1 topic)%nat.
Proof.
  induction rs as [|r rs IH]; intros o topic; cbn [serve].
  - cbn. lia.
  - pose proof (serve_one_balance o r topic) as H1.
    destruct (serve_one o r) as [[o1 evs1] res]. cbn [fst snd] in H1.
    pose proof (IH o1 topic) as H2.
    destruct (serve o1 rs) as [o2 evs2]. cbn [fst snd] in *.
    unfold calls in *. rewrite !count_occ_app. lia.
Qed.

(** X15. Over any sequence of [subscribe] and [unsubscribe] calls on a new
    overlay, and for every topic, [scribe.Subscribe] has been called once
    more than [scribe.Unsubscribe] when the topic is in the maps, and
    exactly as often when it is not. *)
Theorem scribe_calls_balance (rs : list request) (topic : string) :
  calls (ScribeSubscribe topic) (serve New rs).2 =
  (calls (ScribeUnsubscribe topic) (serve New rs).2
   + match subLock (serve New rs).1 !! topic with
     | Some _ => 1
     | None => 0
     end)%nat.
Proof.
  pose proof (serve_balance rs New topic) as Hb.
  unfold locked in Hb. cbn in Hb. rewrite lookup_empty in Hb. lia.
Qed.

(** *** [Overlay.Shutdown] *)

(** What [Shutdown] returns besides nil: the one error there was, or the
    error that [fmt.Errorf] makes out of the list. *)
Inductive shutdown_error :=
| OneError (e : ScribeErr)
| Formatted (errs : list ScribeErr).

(** The receiving loop: one answer per tunnel acceptor, in the order they
    arrive on [errc]; the non-nil ones are appended. *)
Fixpoint gather (answers : list (option ScribeErr)) (errs : list ScribeErr)
  : list ScribeErr :=
  match answers with
  | [] => errs
  | Some err :: answers' => gather answers' (errs ++ [err])
  | None :: answers' => gather answers' errs
  end.

(** [Shutdown], given the acceptors' answers and what [scribe.Shutdown]
    returns. *)
Definition Shutdown (answers : list (option ScribeErr))
    (scribeShutdown : option ScribeErr) : option shutdown_error :=
  let errs := gather answers [] in
  let errs := match scribeShutdown with
              | Some err => errs ++ [err]
              | None => errs
              end in
  match errs with
  | [] => None
  | [err] => Some (OneError err)
  | _ => Some (Formatted errs)
  end.

(** The errors a result of [Shutdown] tells of. *)
Definition reported (r : option shutdown_error) : list ScribeErr :=
  match r with
  | None => []
  | Some (OneError e) => [e]
  | Some (Formatted errs) => errs
  end.

Lemma gather_app answers : forall errs,
  gather answers errs = errs ++ omap id answers.
Proof.
  induction answers as [|[e|] answers IH]; intros errs; cbn.
  - rewrite app_nil_r. reflexivity.
  - rewrite IH, <- app_assoc. reflexivity.
  - apply IH.
Qed.

(** X16. [Shutdown] swallows no error: what it returns tells of every error
    an acceptor answered, in order of arrival, followed by the error of
    [scribe.Shutdown]; it returns nil exactly when there was none. *)
Theorem Shutdown_reports_every_error (answers : list (option ScribeErr))
    (scribeShutdown : option ScribeErr) :
  reported (Shutdown answers scribeShutdown) =
    omap id answers ++ option_list scribeShutdown /\
  (Shutdown answers scribeShutdown = None <->
   Forall (fun a => a = None) answers /\ scribeShutdown = None).
Proof.
  unfold Shutdown. rewrite gather_app, app_nil_l.
  assert (Hall : omap id answers = [] <-> Forall (fun a => a = None) answers).
  { induction answers as [|[e|] answers IH]; cbn.
    - split; auto.
    - split; [discriminate|]. intros Hf. inversion Hf. discriminate.
    - rewrite IH. split; [auto|]. intros Hf. inversion Hf. assumption. }
  split.
  - destruct scribeShutdown as [e|].
    + change (option_list (Some e)) with [e].
      destruct (omap id answers ++ [e]) as [|x [|y l]]; reflexivity.
    + change (option_list (@None ScribeErr)) with (@nil ScribeErr).
      rewrite app_nil_r.
      destruct (omap id answers) as [|x [|y l]]; reflexivity.
  - rewrite <- Hall. destruct scribeShutdown as [e|].
    + destruct (omap id answers) as [|x [|y l]]; cbn;
        (split; [discriminate|intros [_ E]; discriminate]).
    + destruct (omap id answers) as [|x [|y l]]; cbn.
      * split; auto.
      * split; [discriminate|intros [E _]; discriminate].
      * split; [discriminate|intros [E _]; discriminate].
Qed.

End WithScribe.

(** *** Runs *)

Lemma reachable_tidy_witness :
  [7%N] <> [] /\ subLock once !! "news"%string = Some tt.
Proof.
  apply (reachable_tidy string once "news").
  apply reach_subscribe, reach_New.
Defined.

Lemma subscribe_adds_member_witness :
  live (subscribe string None once 8 "news").1.1 "news" = live once "news" ++ [8%N] /\
  (forall t, t <> "news"%string ->
     subLive (subscribe string None once 8 "news").1.1 !! t = subLive once !! t /\
     subLock (subscribe string None once 8 "news").1.1 !! t = subLock once !! t) /\
  (subscribe string None once 8 "news").1.2 =
    (if decide (live once "news" = []) then [ScribeSubscribe "news"] else []) /\
  (subscribe string None once 8 "news").2 =
    (if decide (live once "news" = []) then option_map (ErrScribe string) None
     else None).
Proof.
  apply (subscribe_adds_member string None once 8 "news").
  apply reach_subscribe, reach_New.
Defined.

Lemma unsubscribe_removes_one_witness :
  (forall x,
     count_occ N.eq_dec (live (unsubscribe string None twice 7 "news").1.1 "news") x =
     if decide (x = 7%N) then Nat.pred (count_occ N.eq_dec (live twice "news") x)
     else count_occ N.eq_dec (live twice "news") x) /\
  (forall t, t <> "news"%string ->
     subLive (unsubscribe string None twice 7 "news").1.1 !! t = subLive twice !! t /\
     subLock (unsubscribe string None twice 7 "news").1.1 !! t = subLock twice !! t).
Proof.
  apply (unsubscribe_removes_one string None twice 7 "news").
  apply reach_subscribe, reach_subscribe, reach_New.
Defined.

Lemma subscribe_unsubscribe_round_trip_witness :
  (unsubscribe string None (subscribe string None once 8 "news").1.1 8 "news").1.1
    = once /\
  (unsubscribe string None (subscribe string None once 8 "news").1.1 8 "news").1.2
    = (if decide (live once "news" = []) then [ScribeUnsubscribe "news"] else []).
Proof.
  apply (subscribe_unsubscribe_round_trip string None None once 8 "news").
  - apply reach_subscribe, reach_New.
  - vm_compute. intros Hin. apply elem_of_cons in Hin as [E|Hin];
      [discriminate|inversion Hin].
Defined.

Lemma subscribe_failure_is_kept_witness :
  (subscribe string (Some "down"%string) New 7 "news").2
    = Some (ErrScribe string "down"%string) /\
  subLive (subscribe string (Some "down"%string) New 7 "news").1.1 !! "news"%string
    = Some [7%N] /\
  (subscribe string None
     (subscribe string (Some "down"%string) New 7 "news").1.1 8 "news").1.2 = [] /\
  (subscribe string None
     (subscribe string (Some "down"%string) New 7 "news").1.1 8 "news").2 = None.
Proof.
  apply (subscribe_failure_is_kept string "down"%string None New 7 8 "news").
  reflexivity.
Defined.

Example serve_two_topics :
  serve string New
    [Subscribe string None 7 "news"; Subscribe string None 8 "news";
     Subscribe string None 7 "sport"; Unsubscribe string None 7 "news";
     Unsubscribe string None 8 "news"; Unsubscribe string None 9 "sport"]
  = ({| subLive := {["sport"%string := [7%N]]};
        subLock := {["sport"%string := tt]} |},
     [ScribeSubscribe "news"; ScribeSubscribe "sport"; ScribeUnsubscribe "news";
      LogNoSubscription "sport" 9]).
Proof. vm_compute. reflexivity. Qed.

Example Shutdown_samples :
  Shutdown string [None; None] None = None /\
  Shutdown string [None; Some "a"%string] None = Some (OneError string "a"%string) /\
  Shutdown string [Some "a"%string; None] (Some "b"%string)
    = Some (Formatted string ["a"%string; "b"%string]) /\
  Shutdown string [] (Some "b"%string) = Some (OneError string "b"%string).
Proof. repeat split; reflexivity. Qed.

End IrisLaws.

(** ** [Beat] with node ids as the pointers they are *)

Module CarrierPtr.
Import BigText.

(** A [*big.Int] is nil ([None]) or points to a number.  [String] on a nil
    pointer gives ["<nil>"]. *)
Definition Ptr_String (id : option Z) : string :=
  match id with
  | Some x => Int_String x
  | None => "<nil>"
  end.

(** The methods of [topic.Topic] that [Beat] calls; [GenerateReport]
    returns the node ids as [[]*big.Int]. *)
Class TopicOps (T : Type) := {
  Self : T -> Z;
  Parent : T -> option Z;
  GenerateReport : T -> list (option Z) * list Z;
  Cycle : T -> T
}.

Section WithTopic.
Context {T : Type} `{TopicOps T}.

(** The body of the inner loop, keyed by [id.String()]. *)
Definition add_report (self : Z) (reports : gmap string Carrier.report)
    (id : option Z) (cap : Z) : gmap string Carrier.report :=
  let sid := Ptr_String id in
  let rep := match reports !! sid with
             | Some rep => rep
             | None => {| Carrier.Tops := []; Carrier.Caps := [] |}
             end in
  <[sid := {| Carrier.Tops := Carrier.Tops rep ++ [self];
              Carrier.Caps := Carrier.Caps rep ++ [cap] |}]> reports.

(** [for i, id := range ids { ... caps[i] ... }], from index [i] on. *)
Fixpoint report_ids (self : Z) (caps : list Z) (i : nat) (ids : list (option Z))
    (reports : gmap string Carrier.report)
  : option (gmap string Carrier.report) :=
  match ids with
  | [] => Some reports
  | id :: ids' =>
      match caps !! i with
      | Some cap => report_ids self caps (S i) ids' (add_report self reports id cap)
      | None => None
      end
  end.

(** [for _, top := range c.topics { ...; top.Cycle() }] *)
Fixpoint collect_reports (tops : list T) (reports : gmap string Carrier.report)
  : option (gmap string Carrier.report) :=
  match tops with
  | [] => Some reports
  | top :: tops' =>
      let '(ids, caps) := GenerateReport top in
      match report_ids (Self top) caps 0 ids reports with
      | Some reports' => collect_reports tops' reports'
      | None => None
      end
  end.

(** [for _, top := range c.topics { if top.Parent() == nil { ... } }] *)
Fixpoint subscribe_roots (tops : list T) : list Carrier.spawn :=
  match tops with
  | [] => []
  | top :: tops' =>
      match Parent top with
      | None => Carrier.SendSubscribe (Self top) :: subscribe_roots tops'
      | Some _ => subscribe_roots tops'
      end
  end.

(** [carrier.Beat]; the second loop is [Carrier.distribute]. *)
Definition Beat (topics : gmap string T) : Carrier.beat_result (T := T) :=
  match collect_reports (map_to_list topics).*2 ∅ with
  | None => Carrier.BeatPanic Carrier.IndexOutOfRange
  | Some reports =>
      let cycled := Cycle <$> topics in
      match Carrier.distribute (map_to_list reports) with
      | None => Carrier.BeatPanic Carrier.FailedExtractNodeId
      | Some sends =>
          Carrier.BeatDone cycled (sends ++ subscribe_roots (map_to_list cycled).*2)
      end
  end.

(** *** Without nil ids every key is the text of a number *)

Lemma ptr_keys_are_ids_add self reports id cap :
  id <> None ->
  Carrier.keys_are_ids reports ->
  Carrier.keys_are_ids (add_report self reports id cap).
Proof.
  intros Hid Hk. destruct id as [x|]; [|congruence].
  apply (Carrier.keys_are_ids_add self reports x cap Hk).
Qed.

Lemma ptr_keys_are_ids_report_ids self caps ids : forall i reports reports',
  (None ∉ ids) ->
  Carrier.keys_are_ids reports ->
  report_ids self caps i ids reports = Some reports' ->
  Carrier.keys_are_ids reports'.
Proof.
  induction ids as [|id ids IH]; intros i reports reports' Hnil Hk E; cbn in E.
  - injection E as <-. exact Hk.
  - destruct (caps !! i) as [cap|]; [|discriminate].
    apply not_elem_of_cons in Hnil as [Hid Hnil].
    eapply IH; [exact Hnil| |exact E]. apply ptr_keys_are_ids_add; [congruence|exact Hk].
Qed.

Lemma ptr_keys_are_ids_collect tops : forall reports reports',
  (forall top, top ∈ tops -> None ∉ (GenerateReport top).1) ->
  Carrier.keys_are_ids reports ->
  collect_reports tops reports = Some reports' ->
  Carrier.keys_are_ids reports'.
Proof.
  induction tops as [|top tops IH]; intros reports reports' Hnil Hk E; cbn in E.
  - injection E as <-. exact Hk.
  - pose proof (Hnil top ltac:(left)) as Htop.
    destruct (GenerateReport top) as [ids caps]. cbn [fst] in Htop.
    destruct (report_ids (Self top) caps 0 ids reports) as [mid|] eqn:Em;
      [|discriminate].
    eapply IH; [| |exact E].
    + intros top' Hin. apply Hnil. right. exact Hin.
    + eapply ptr_keys_are_ids_report_ids; eauto.
Qed.

(** C9, as the code has it.  When no topic reports a nil node id, every key
    of the report map is [id.String()] of a number, every key parses back
    with [SetString(sid, 10)], and [Beat] does not reach
    [panic("failed to extract node id.")]. *)
Theorem Beat_extract_panic_needs_nil (topics : gmap string T) :
  (forall k top, topics !! k = Some top -> None ∉ (GenerateReport top).1) ->
  Beat topics <> Carrier.BeatPanic Carrier.FailedExtractNodeId.
Proof.
  intros Hnil. unfold Beat.
  destruct (collect_reports (map_to_list topics).*2 ∅) as [reports|] eqn:Ec;
    [|discriminate].
  assert (Hk : Carrier.keys_are_ids reports).
  { eapply ptr_keys_are_ids_collect; [|apply Carrier.keys_are_ids_empty|exact Ec].
    intros top Hin. apply list_elem_of_fmap in Hin as ([k top'] & -> & Hin).
    apply elem_of_map_to_list in Hin. eapply Hnil, Hin. }
  destruct (Carrier.distribute_ids (map_to_list reports)) as [sends ->];
    [|discriminate].
  intros sid rep Hin. apply elem_of_map_to_list in Hin. eapply Hk, Hin.
Qed.

(** *** A nil id stops [Beat] *)








End WithTopic.

(** *** Runs *)

Record ptr_topic := {
  pt_self : Z;
  pt_parent : option Z;
  pt_ids : list (option Z);
  pt_caps : list Z;
  pt_cycles : nat
}.

#[export] Instance ptr_topic_ops : TopicOps ptr_topic := {|
  Self := pt_self;
  Parent := pt_parent;
  GenerateReport := fun t => (pt_ids t, pt_caps t);
  Cycle := fun t =>
    {| pt_self := pt_self t; pt_parent := pt_parent t; pt_ids := pt_ids t;
       pt_caps := pt_caps t; pt_cycles := S (pt_cycles t) |}
|}.

(** Topic 7 reports the nodes 1 and 2. *)
Definition sound_topics : gmap string ptr_topic :=
  {[ Int_String 7 :=
       {| pt_self := 7; pt_parent := None; pt_ids := [Some 1; Some 2];
          pt_caps := [3; 4]; pt_cycles := 0 |} ]}.

(** Topic 7 reports node 1 and a nil pointer. *)
Definition nil_topics : gmap string ptr_topic :=
  {[ Int_String 7 :=
       {| pt_self := 7; pt_parent := None; pt_ids := [Some 1; None];
          pt_caps := [3; 4]; pt_cycles := 0 |} ]}.

Example Beat_sound_topics :
  exists topics',
    Beat sound_topics =
      Carrier.BeatDone topics'
        [Carrier.SendReport 1 {| Carrier.Tops := [7]; Carrier.Caps := [3] |};
         Carrier.SendReport 2 {| Carrier.Tops := [7]; Carrier.Caps := [4] |};
         Carrier.SendSubscribe 7].
Proof. eexists. vm_compute. reflexivity. Qed.

(** C9 fails as stated: a report with a nil node id is keyed by ["<nil>"],
    which [SetString(sid, 10)] rejects, and [Beat] reaches the panic. *)
Lemma Beat_reaches_extract_panic :
  Ptr_String None = "<nil>"%string /\
  Int_SetString10 "<nil>" = None /\
  Beat nil_topics = Carrier.BeatPanic Carrier.FailedExtractNodeId.
Proof. repeat split; vm_compute; reflexivity. Qed.

Lemma Beat_extract_panic_needs_nil_witness :
  Beat sound_topics <> Carrier.BeatPanic Carrier.FailedExtractNodeId.
Proof.
  apply (Beat_extract_panic_needs_nil sound_topics).
  intros k top Hk. unfold sound_topics in Hk.
  apply lookup_singleton_Some in Hk as [_ <-]. cbn.
  intros Hin. apply elem_of_cons in Hin as [E|Hin]; [discriminate|].
  apply elem_of_cons in Hin as [E|Hin]; [discriminate|inversion Hin].
Defined.


End CarrierPtr.
